(** * The two tutorial notebooks, embedded

    The repository is two Jupyter notebooks: a word-level text generator
    (nanoGPT tutorial) and an addition classifier (adder tutorial).  This
    file embeds the hand-written part of both -- tokenisers, vocabulary
    dictionaries, the synthetic data generator, padding, the two batch
    samplers and the sampling loop -- and proves the properties listed in
    the specification.

    The transformer, the optimiser and the random number generators come
    from libraries; they appear here as interfaces. *)

From Stdlib Require Import ZArith Ascii String List Lia.
From stdpp Require Import base tactics option list gmap strings sorting.

Local Open Scope Z_scope.

(** ** Python values and exceptions *)

(** Keys of the dictionaries of the notebooks are strings (one-character
    strings when a string is iterated) or integers. *)
Inductive key : Type :=
  | KStr (s : string)
  | KInt (z : Z).

Inductive exn : Type :=
  | KeyError (k : key)
  | ValueError
  | RuntimeError
  | IndexError.

(** A computation either returns or raises; nothing in the notebooks'
    data pipeline has a handler, so a raised exception ends the cell. *)
Inductive result (A : Type) : Type :=
  | Ok (a : A)
  | Raise (e : exn).
Arguments Ok {A} a.
Arguments Raise {A} e.

#[global] Instance result_ret : MRet result := λ A a, Ok a.
#[global] Instance result_bind : MBind result := λ A B f m,
  match m with
  | Ok a => f a
  | Raise e => Raise e
  end.
#[global] Instance result_fmap : FMap result := λ A B f m,
  match m with
  | Ok a => Ok (f a)
  | Raise e => Raise e
  end.

(** [[f x for x in l]] where [f] may raise: elements are evaluated left to
    right and the first exception ends the comprehension. *)
Fixpoint comprehension {A B} (f : A → result B) (l : list A) : result (list B) :=
  match l with
  | [] => Ok []
  | x :: l' => y ← f x; ys ← comprehension f l'; mret (y :: ys)
  end.

(** [d[k]] on a dict. *)
Definition getitem_str {V} (d : gmap ascii V) (c : ascii) : result V :=
  match d !! c with
  | Some v => Ok v
  | None => Raise (KeyError (KStr (String c "")))
  end.

Definition getitem_word {V} (d : gmap string V) (w : string) : result V :=
  match d !! w with
  | Some v => Ok v
  | None => Raise (KeyError (KStr w))
  end.

Definition getitem_int {V} (d : gmap Z V) (i : Z) : result V :=
  match d !! i with
  | Some v => Ok v
  | None => Raise (KeyError (KInt i))
  end.

(** [enumerate(l)]. *)
Definition enumerate {A} (l : list A) : list (Z * A) :=
  imap (λ i x, (Z.of_nat i, x)) l.

(** [{k: v for ...}]: pairs are inserted in order, so a later pair with the
    same key overwrites an earlier one. *)
Definition dict_of_pairs {K V} `{Countable K} (l : list (K * V)) : gmap K V :=
  foldl (λ m kv, <[kv.1 := kv.2]> m) ∅ l.

(** ** Python [str] *)

(** A [str] is modelled as a [string] of code points below 256. *)
Definition chars (s : string) : list ascii := list_ascii_of_string s.
Definition of_chars (l : list ascii) : string := string_of_list_ascii l.

(** [''.join(l)]. *)
Definition join (l : list string) : string := foldr String.app "" l.

(** [s.ljust(width)]: pads with spaces on the right, never truncates. *)
Definition ljust (s : string) (width : nat) : string :=
  s +:+ of_chars (replicate (width - String.length s) " "%char).

Definition digit_char (d : Z) : ascii := ascii_of_nat (48 + Z.to_nat d).

(** Decimal digits of a non-negative integer, most significant first.  The
    fuel is the bit length, an upper bound of the number of digits. *)
Fixpoint str_digits (fuel : nat) (n : Z) (acc : string) : string :=
  match fuel with
  | O => acc
  | S fuel' =>
      let acc' := String (digit_char (n `mod` 10)) acc in
      if n <? 10 then acc' else str_digits fuel' (n `div` 10) acc'
  end.

(** [str(n)], also what an f-string does with [{n}]. *)
Definition str (n : Z) : string :=
  if n <? 0 then String "-" (str_digits (S (Z.to_nat (Z.log2 (- n)))) (- n) "")
  else str_digits (S (Z.to_nat (Z.log2 n))) n "".

(** [int(s)] on a string of decimal digits, used to read questions back. *)
Definition digit_value (c : ascii) : Z := Z.of_nat (nat_of_ascii c) - 48.
Definition int_of_digits (s : string) : Z :=
  foldl (λ v c, 10 * v + digit_value c) 0 (chars s).

(** ** Random number generators *)

(** The generators of [random], [numpy] and [torch] are library code.  The
    interface keeps what the notebooks rely on: a generator is a state, a
    seed determines the state, and a draw below [n] returns an integer in
    [0, n) together with the next state. *)
Class RandomGen (G : Type) := {
  rng_seed : Z → G;
  rng_below : Z → G → Z * G;
  rng_below_range : ∀ n g, 0 < n → 0 ≤ (rng_below n g).1 < n
}.

(** The process-wide generators the notebooks seed in their first cell. *)
Record world (G : Type) := World {
  py_random : G;
  np_random : G;
  torch_random : G
}.
Arguments World {G}.
Arguments py_random {G}.
Arguments np_random {G}.
Arguments torch_random {G}.

Section Random.
Context {G : Type} `{RandomGen G}.

(** [random.seed(a); np.random.seed(b); torch.manual_seed(c)]. *)
Definition seed_all (a b c : Z) (w : world G) : world G :=
  {| py_random := rng_seed a; np_random := rng_seed b; torch_random := rng_seed c |}.

(** [random.randint(a, b)]: [a + randbelow(b - a + 1)], [ValueError] on an
    empty range. *)
Definition random_randint (a b : Z) (w : world G) : result (Z * world G) :=
  if 0 <? b - a + 1 then
    let '(r, g) := rng_below (b - a + 1) (py_random w) in
    Ok (a + r, {| py_random := g; np_random := np_random w; torch_random := torch_random w |})
  else Raise ValueError.

(** One element of [torch.randint(high, size)]. *)
Definition torch_draw (high : Z) (w : world G) : Z * world G :=
  let '(r, g) := rng_below high (torch_random w) in
  (r, {| py_random := py_random w; np_random := np_random w; torch_random := g |}).

Fixpoint torch_draws (high : Z) (n : nat) (w : world G) : list Z * world G :=
  match n with
  | O => ([], w)
  | S n' =>
      let '(r, w1) := torch_draw high w in
      let '(rs, w2) := torch_draws high n' w1 in
      (r :: rs, w2)
  end.

(** [torch.randint(high, (n,))]: [n] integers in [0, high); a
    [RuntimeError] unless [0 < high]. *)
Definition torch_randint (high : Z) (n : nat) (w : world G) : result (list Z * world G) :=
  if 0 <? high then Ok (torch_draws high n w) else Raise RuntimeError.
End Random.

(** A small linear congruential generator: an instance of the interface. *)
Definition lcg_next (g : Z) : Z := (1103515245 * g + 12345) `mod` 2147483648.

#[global, refine] Instance lcg : RandomGen Z := {|
  rng_seed := λ s, s `mod` 2147483648;
  rng_below := λ n g, (lcg_next g `mod` n, lcg_next g)
|}.
Proof.
  intros n g Hn. simpl. apply Z.mod_pos_bound. exact Hn.
Defined.

(** ** Tensors *)

(** Integer tensors of rank one and two, row-major. *)
Inductive tensor : Type :=
  | T1 (v : list Z)
  | T2 (rows : list (list Z)).

(** [t.shape]. *)
Definition shape (t : tensor) : list nat :=
  match t with
  | T1 v => [length v]
  | T2 rows => [length rows; length (hd [] rows)]
  end.

Definition int64_min : Z := - 2 ^ 63.
Definition int64_max : Z := 2 ^ 63 - 1.
Definition fits_int64 (z : Z) : bool := (int64_min <=? z) && (z <=? int64_max).

Definition same_length (rows : list (list Z)) : bool :=
  forallb (λ r, Nat.eqb (length r) (length (hd [] rows))) rows.

(** [torch.tensor(l, dtype=torch.long)] on a list of integers: an integer
    outside the 64-bit range is refused. *)
Definition torch_tensor1 (l : list Z) : result tensor :=
  if forallb fits_int64 l then Ok (T1 l) else Raise RuntimeError.

(** [torch.tensor(ll, dtype=torch.long)] on a list of lists: rows of
    different lengths are refused; the empty list gives the empty rank-one
    tensor. *)
Definition torch_tensor2 (ll : list (list Z)) : result tensor :=
  match ll with
  | [] => Ok (T1 [])
  | _ =>
      if negb (same_length ll) then Raise ValueError
      else if forallb (forallb fits_int64) ll then Ok (T2 ll)
      else Raise RuntimeError
  end.

(** [torch.stack(rows)] on rank-one tensors: needs at least one tensor and
    equal sizes. *)
Definition torch_stack (rows : list (list Z)) : result tensor :=
  match rows with
  | [] => Raise RuntimeError
  | _ => if same_length rows then Ok (T2 rows) else Raise RuntimeError
  end.

(** [l[start:stop]] with Python's rules for negative and out-of-range
    bounds. *)
Definition slice_bound (len : nat) (k : Z) : nat :=
  if k <? 0 then Z.to_nat (Z.max (k + Z.of_nat len) 0)
  else Nat.min (Z.to_nat k) len.

Definition slice {A} (l : list A) (start stop : Z) : list A :=
  let s := slice_bound (length l) start in
  let e := slice_bound (length l) stop in
  take (e - s) (drop s l).

(** [l[start:]]. *)
Definition slice_from {A} (l : list A) (start : Z) : list A :=
  drop (slice_bound (length l) start) l.

(** ** The adder tutorial *)

Module Adder.

(** [input_chars = '0123456789+= '] *)
Definition input_chars : string := "0123456789+= ".
Definition input_vocab_size : nat := String.length input_chars.

Definition input_stoi : gmap ascii Z :=
  dict_of_pairs ((λ p, (p.2, p.1)) <$> enumerate (chars input_chars)).
Definition input_itos : gmap Z ascii :=
  dict_of_pairs (enumerate (chars input_chars)).

Definition encode_input (s : string) : result (list Z) :=
  comprehension (getitem_str input_stoi) (chars s).

Definition decode_input (l : list Z) : result string :=
  of_chars <$> comprehension (getitem_int input_itos) l.

Section Config.
Context {G : Type} `{RandomGen G}.
(** Hyperparameters; the notebook has [batch_size = 32], [ndigit = 2]. *)
Variable batch_size : nat.
Variable ndigit : nat.

Definition max_answer : Z := (10 ^ Z.of_nat ndigit - 1) + (10 ^ Z.of_nat ndigit - 1).
Definition num_answer_classes : Z := max_answer + 1.

Definition generate_addition_data (num_digits : nat) (w : world G)
  : result (string * Z * world G) :=
  '(a, w1) ← random_randint 0 (10 ^ Z.of_nat num_digits - 1) w;
  '(b, w2) ← random_randint 0 (10 ^ Z.of_nat num_digits - 1) w1;
  let c := a + b in
  let question := str a +:+ "+" +:+ str b +:+ "=" in
  let answer := c in
  mret (question, answer, w2).

Definition max_question_length : nat := ndigit + 1 + ndigit + 1.

(** The body of the [for _ in range(batch_size)] loop of [get_batch],
    run [n] times on the lists built so far. *)
Fixpoint fill_batch (n : nat) (questions : list (list Z)) (answers : list Z)
    (w : world G) : result (list (list Z) * list Z * world G) :=
  match n with
  | O => mret (questions, answers, w)
  | S n' =>
      '(q_str, ans_int, w1) ← generate_addition_data ndigit w;
      let padded_q := ljust q_str max_question_length in
      encoded_q ← encode_input padded_q;
      fill_batch n' (questions ++ [encoded_q]) (answers ++ [ans_int]) w1
  end.

Definition get_batch (w : world G) : result (tensor * tensor * world G) :=
  '(questions, answers, w1) ← fill_batch batch_size [] [] w;
  x ← torch_tensor2 questions;
  y ← torch_tensor1 answers;
  mret (x, y, w1).
End Config.

End Adder.

(** ** The nanoGPT tutorial *)

(** *** Character classes of [re] and [str.lower] on code points below 256 *)

Definition code (c : ascii) : N := N_of_ascii c.
Definition between (lo hi n : N) : bool := ((lo <=? n) && (n <=? hi))%N.

(** [\w]: alphanumeric or underscore. *)
Definition is_word (c : ascii) : bool :=
  let n := code c in
  between 48 57 n || between 65 90 n || between 97 122 n || (n =? 95)%N
  || (n =? 170)%N || between 178 179 n || (n =? 181)%N || between 185 186 n
  || between 188 190 n || between 192 214 n || between 216 246 n
  || between 248 255 n.

(** [\s]: whitespace. *)
Definition is_space (c : ascii) : bool :=
  let n := code c in
  between 9 13 n || between 28 32 n || (n =? 133)%N || (n =? 160)%N.

Definition lower_char (c : ascii) : ascii :=
  let n := code c in
  if between 65 90 n || between 192 214 n || between 216 222 n
  then ascii_of_N (n + 32) else c.

(** [s.lower()]. *)
Definition lower (s : string) : string := of_chars (lower_char <$> chars s).

(** [needle in hay] on strings: substring test. *)
Fixpoint str_contains (hay needle : string) : bool :=
  String.prefix needle hay ||
  match hay with
  | EmptyString => false
  | String _ hay' => str_contains hay' needle
  end.

(** *** [re.findall(r'\b\w+\b|[^\w\s]', s)]

    Scanning from the left, the first alternative matches a maximal run of
    word characters (it starts and ends at a boundary) and the second a
    single character that is neither a word character nor whitespace;
    whitespace is skipped.  [cur] is the run of word characters read so
    far. *)
Definition flush (cur : list ascii) : list string :=
  match cur with
  | [] => []
  | _ => [of_chars cur]
  end.

Fixpoint scan (cur : list ascii) (s : list ascii) : list string :=
  match s with
  | [] => flush cur
  | c :: s' =>
      if is_word c then scan (cur ++ [c]) s'
      else if is_space c then flush cur ++ scan [] s'
      else flush cur ++ of_chars [c] :: scan [] s'
  end.

Definition findall_words (s : string) : list string := scan [] (chars s).

Module NanoGPT.

(** The corpus of the notebook. *)
Definition text : string :=
"To stale 't a little more.

First Citizen:
Well, I'll hear it, sir: yet you must not think to
fob off our disgrace with a tale: but, an 't please
you, deliver.

MENENIUS:
There was a time when all the body's members
Rebell'd against the belly, thus accused it:
That only like a gulf it did remain
I' the midst o' the body, idle and unactive,
Still cupboarding the viand, never bearing
Like labour with the rest, where the other instruments
Did see and hear, devise, instruct, walk, feel,
And, mutually participate, did minister
Unto the appetite and affection common
Of the whole body. The belly answer'd--

First Citizen:
Well, sir, what answer made the belly?

MENENIUS:
Sir, I shall tell you. With a kind of smile,
Which ne'er came from the lungs, but even thus--
For, look you, I may make the belly smile
As well as speak--it tauntingly replied
To the discontented members, the mutinous parts
That envied his receipt; even so most fitly
As you malign our senators for that
They are not such as you.".

Section Vocabulary.
Variable text : string.

Definition words : list string := findall_words (lower text).
(** [sorted(list(set(words)))] *)
Definition unique_words : list string :=
  merge_sort String.le (elements (list_to_set words : gset string)).
Definition vocab_size : nat := length unique_words.

Definition stoi : gmap string Z :=
  dict_of_pairs ((λ p, (p.2, p.1)) <$> enumerate unique_words).
Definition itos : gmap Z string :=
  dict_of_pairs (enumerate unique_words).

(** Encoder: take a string, output a list of integers. *)
Definition encode (s : string) : result (list Z) :=
  let words := findall_words (lower s) in
  let stoi := stoi in (* the dictionary of the cell, built once *)
  comprehension (getitem_word stoi) (filter (λ word, is_Some (stoi !! word)) words).

Definition decode_step (result : string) (iw : Z * string) : string :=
  let '(i, word) := iw in
  if str_contains ".,!?;:" word then result +:+ word
  else if i =? 0 then result +:+ word
  else result +:+ (" " +:+ word).

(** Decoder: take a list of integers, output a string. *)
Definition decode (l : list Z) : result string :=
  let itos := itos in
  words ← comprehension (getitem_int itos) l;
  mret (foldl decode_step "" (enumerate words)).

(** [data = torch.tensor(encode(text), dtype=torch.long)] and the two
    halves [data[:n]], [data[n:]] with [n = int(0.5*len(data))]. *)
Definition data : result (list Z) := encode text.
Definition split_point (data : list Z) : Z := Z.of_nat (length data) `div` 2.
Definition train_data : result (list Z) :=
  d ← data; mret (slice d 0 (split_point d)).
Definition val_data : result (list Z) :=
  d ← data; mret (slice_from d (split_point d)).
End Vocabulary.

Section Batches.
Context {G : Type} `{RandomGen G}.
Variables train_data val_data : list Z.
(** Hyperparameters; the notebook has [batch_size = 32],
    [block_size = 10]. *)
Variable batch_size : nat.
Variable block_size : nat.

Definition get_batch (split : string) (w : world G)
  : result (tensor * tensor * world G) :=
  let data := if decide (split = "train"%string) then train_data else val_data in
  '(ix, w1) ← torch_randint (Z.of_nat (length data) - Z.of_nat block_size) batch_size w;
  x ← torch_stack ((λ i, slice data i (i + Z.of_nat block_size)) <$> ix);
  y ← torch_stack ((λ i, slice data (i + 1) (i + Z.of_nat block_size + 1)) <$> ix);
  mret (x, y, w1).
End Batches.

Section Generation.
Context {G : Type}.
Variable block_size : nat.
(** The library side of the loop.  [Logits] and [Probs] are rows of
    floating-point scores over the vocabulary.  [model context] is
    [model(context).logits] for a batch of one sequence: one row of
    logits per position, or an exception of the library. *)
Variables Logits Probs : Type.
Variable model : list Z → result (list Logits).
(** [logits / temperature] *)
Variable div : Logits → Z → Logits.
(** [F.softmax(logits, dim=-1)] *)
Variable softmax : Logits → Probs.
(** [torch.multinomial(probs, num_samples=1)] *)
Variable multinomial : Probs → world G → Z * world G.

(** What one iteration did: the sequence it started from, the context
    it passed to the model, the scaled logits it sampled from and the
    token it appended.  The log is not part of the notebook; it records
    the calls made. *)
Record iteration := Iteration {
  seq_before : list Z;
  fed : list Z;
  scaled : Logits;
  token : Z
}.

(** [logits[:, -1, :]] *)
Definition last_position (logits : list Logits) : result Logits :=
  match last logits with
  | Some l => Ok l
  | None => Raise IndexError
  end.

(** The body of [for _ in range(50)].  The batch dimension of
    [generated] has size one ([unsqueeze(0)]); the row stands for the
    tensor. *)
Definition generation_step (generated : list Z) (w : world G)
  : result (list Z * world G * iteration) :=
  let context_cropped :=
    if (block_size <? length generated)%nat
    then slice_from generated (- Z.of_nat block_size)
    else generated in
  logits ← model context_cropped;
  logits ← last_position logits;
  let temperature := 1 in
  let logits := div logits temperature in
  let probs := softmax logits in
  let '(next_token, w1) := multinomial probs w in
  mret (generated ++ [next_token], w1,
        {| seq_before := generated; fed := context_cropped;
           scaled := logits; token := next_token |}).

Fixpoint generation_loop (n : nat) (generated : list Z) (w : world G)
    (log : list iteration) : result (list Z * world G * list iteration) :=
  match n with
  | O => mret (generated, w, log)
  | S n' =>
      '(generated1, w1, it) ← generation_step generated w;
      generation_loop n' generated1 w1 (log ++ [it])
  end.

Definition generate (context : list Z) (w : world G)
  : result (list Z * world G * list iteration) :=
  generation_loop 50 context w [].
End Generation.

Arguments seq_before {Logits} _.
Arguments fed {Logits} _.
Arguments scaled {Logits} _.
Arguments token {Logits} _.

End NanoGPT.

(** ** Vocabulary of the statements *)

Definition from_Ok {A} (d : A) (m : result A) : A :=
  match m with
  | Ok a => a
  | Raise _ => d
  end.

Definition is_digit (c : ascii) : Prop := ∃ d, 0 ≤ d < 10 ∧ c = digit_char d.

(** Strings over the input vocabulary of the adder. *)
Definition known_chars (s : string) : Prop :=
  Forall (λ c, c ∈ chars Adder.input_chars) (chars s).

#[global] Instance known_chars_dec s : Decision (known_chars s).
Proof. unfold known_chars. apply _. Defined.

(** The words of [s] that [encode] keeps, and the id [stoi] gives a word. *)
Definition known_words (text s : string) : list string :=
  filter (λ word, is_Some (NanoGPT.stoi text !! word)) (findall_words (lower s)).

Definition word_id (text w : string) : Z := default 0 (NanoGPT.stoi text !! w).

(** A token is a non-empty run of word characters or one character that
    is neither a word character nor whitespace. *)
Definition word_token (w : string) : Prop :=
  chars w ≠ [] ∧ Forall (λ c, is_word c = true) (chars w).
Definition punct_token (w : string) : Prop :=
  ∃ c, w = String c "" ∧ is_word c = false ∧ is_space c = false.
Definition token_shape (w : string) : Prop := word_token w ∨ punct_token w.
Definition lowered (w : string) : Prop := Forall (λ c, lower_char c = c) (chars w).

(** What [decode] appends for the word at position [n]. *)
Definition piece (n : nat) (w : string) : string :=
  if str_contains ".,!?;:" w then w
  else if Z.of_nat n =? 0 then w
  else " " +:+ w.

(** The string built by [decode] from a list of tokens. *)
Definition decoded (ws : list string) : string :=
  foldl NanoGPT.decode_step "" (enumerate ws).

(** What the log entry of an iteration of the generation loop says: the
    context is the last [block_size] tokens of the sequence, and the token
    is sampled from the softmax of the last logits divided by 1. *)
Definition iteration_ok {G : Type} (block_size : nat) {Logits Probs : Type}
    (model : list Z → result (list Logits)) (div : Logits → Z → Logits)
    (softmax : Logits → Probs) (multinomial : Probs → world G → Z * world G)
    (it : NanoGPT.iteration Logits) : Prop :=
  NanoGPT.fed it
    = drop (length (NanoGPT.seq_before it) - block_size) (NanoGPT.seq_before it)
  ∧ (length (NanoGPT.fed it) ≤ block_size)%nat
  ∧ ∃ ls l wk, model (NanoGPT.fed it) = Ok ls ∧ last ls = Some l
               ∧ NanoGPT.scaled it = div l 1
               ∧ NanoGPT.token it
                 = (multinomial (softmax (NanoGPT.scaled it)) wk).1.

(** Two runs of a sampler agree: both raise the same exception, or both
    return the same value and leave the generator picked by [view] in the
    same state. *)
Definition agree {A G : Type} (view : world G → G) (m1 m2 : result (A * world G)) : Prop :=
  match m1, m2 with
  | Ok (x1, w1), Ok (x2, w2) => x1 = x2 ∧ view w1 = view w2
  | Raise e1, Raise e2 => e1 = e2
  | _, _ => False
  end.

(** *** The notebooks' own data, and a small model to run the loop on *)

Definition notebook_world (seed : Z) : world Z :=
  seed_all seed seed seed (World 0 0 0).
Definition notebook_train : list Z := from_Ok [] (NanoGPT.train_data NanoGPT.text).
Definition notebook_val : list Z := from_Ok [] (NanoGPT.val_data NanoGPT.text).
Definition notebook_context : list Z :=
  from_Ok [] (NanoGPT.encode NanoGPT.text
                "sir: yet you must not think to fob off our disgrace with a tale").

(** Integer scores stand for the logits: a context of one to ten tokens
    gets one row of scores per token. *)
Definition example_model (ctx : list Z) : result (list (list Z)) :=
  if decide (1 ≤ length ctx ≤ 10)%nat
  then Ok ((λ t, [t; t + 1; 2 * t]) <$> ctx)
  else Raise IndexError.
Definition example_div (logits : list Z) (temperature : Z) : list Z :=
  (λ x, x `div` temperature) <$> logits.
Definition example_softmax (logits : list Z) : list Z := logits.
Definition example_multinomial (probs : list Z) (w : world Z) : Z * world Z :=
  torch_draw (Z.of_nat (length probs)) w.

(** ** More of the notebooks *)

(** [range(n)]. *)
Definition range (n : nat) : list Z := Z.of_nat <$> seq 0 n.

(** [l[idx]] on a list or along the first dimension of a tensor: a negative
    index counts from the end, an index outside the list is an
    [IndexError]. *)
Definition list_getitem {A} (l : list A) (idx : Z) : result A :=
  let i := if idx <? 0 then idx + Z.of_nat (length l) else idx in
  if i <? 0 then Raise IndexError
  else match l !! Z.to_nat i with
       | Some x => Ok x
       | None => Raise IndexError
       end.

(** [s.endswith(suffix)]. *)
Definition endswith (s suffix : string) : bool :=
  bool_decide (chars suffix `suffix_of` chars s).

(** [torch.tensor(l, dtype=torch.long).unsqueeze(0)]: a batch of one row. *)
Definition row_tensor (l : list Z) : result tensor :=
  if forallb fits_int64 l then Ok (T2 [l]) else Raise RuntimeError.

Module NanoDemo.

(** The loop that prints contexts and targets of a batch, after the cell
    of [get_batch] in the nanoGPT notebook: for the first two rows and the
    first eight positions, the decoded context [xb[b, :t+1]] and the word
    of the target [yb[b, t]].  The result is the list of printed pairs. *)
Definition example_at (text : string) (xb yb : list (list Z)) (b t : Z)
  : result (string * string) :=
  row ← list_getitem xb b;
  context_words ← NanoGPT.decode text (slice row 0 (t + 1));
  targets ← list_getitem yb b;
  target ← list_getitem targets t;
  target_word ← getitem_int (NanoGPT.itos text) target;
  mret (context_words, target_word).

Definition show_examples (text : string) (batch_size block_size : nat)
    (xb yb : list (list Z)) : result (list (list (string * string))) :=
  comprehension
    (λ b, comprehension (λ t, example_at text xb yb b t) (range (Nat.min 8 block_size)))
    (range (Nat.min 2 batch_size)).

End NanoDemo.

Module AdderEval.

Section Evaluation.
Context {G : Type} `{RandomGen G}.
Variable ndigit : nat.
(** [torch.argmax(model(encoded_question)['logits'], dim=-1).item()] with
    the model in evaluation mode: the class the classifier picks for a
    batch of one question, or an exception of the library. *)
Variable model_predict : tensor → result Z.

(** The body of [for i in range(num_tests)] of [test_model_addition], run
    [n] times; [correct_predictions] is the counter. *)
Fixpoint test_loop (num_digits_test : nat) (n : nat) (correct_predictions : Z)
    (w : world G) : result (Z * world G) :=
  match n with
  | O => mret (correct_predictions, w)
  | S n' =>
      '(a, w1) ← random_randint 0 (10 ^ Z.of_nat num_digits_test - 1) w;
      '(b, w2) ← random_randint 0 (10 ^ Z.of_nat num_digits_test - 1) w1;
      let correct_answer := a + b in
      let question := str a +:+ "+" +:+ str b +:+ "=" in
      let padded_question := ljust question (Adder.max_question_length ndigit) in
      encoded ← Adder.encode_input padded_question;
      encoded_question ← row_tensor encoded;
      predicted_answer ← model_predict encoded_question;
      let is_correct := predicted_answer =? correct_answer in
      let correct_predictions :=
        if is_correct then correct_predictions + 1 else correct_predictions in
      test_loop num_digits_test n' correct_predictions w2
  end.

(** [ask_adder]: the question as printed and the predicted answer. *)
Definition ask_adder (problem_input : string) : result (string * Z) :=
  let question :=
    if negb (endswith problem_input "=") then problem_input +:+ "="
    else problem_input in
  let padded_question := ljust question (Adder.max_question_length ndigit) in
  encoded ← Adder.encode_input padded_question;
  encoded_question ← row_tensor encoded;
  predicted_answer ← model_predict encoded_question;
  mret (question, predicted_answer).
End Evaluation.

End AdderEval.

(** The dataset class of the second version of the adder notebook. *)
Module ModifiedAdditionDataset.

Record t := Dataset {
  num_digits : nat;
  num_samples : nat;
  max_question_len : nat;
  questions : list tensor;
  answers : list Z
}.

Section Init.
Context {G : Type} `{RandomGen G}.

(** The body of [for _ in range(num_samples)] of [__init__], run [n]
    times. *)
Fixpoint init_loop (num_digits max_question_len : nat) (n : nat)
    (questions : list tensor) (answers : list Z) (w : world G)
  : result (list tensor * list Z * world G) :=
  match n with
  | O => mret (questions, answers, w)
  | S n' =>
      '(question, answer, w1) ← Adder.generate_addition_data num_digits w;
      let padded_question := ljust question max_question_len in
      encoded_question ← Adder.encode_input padded_question;
      tensor_question ← torch_tensor1 encoded_question;
      init_loop num_digits max_question_len n'
        (questions ++ [tensor_question]) (answers ++ [answer]) w1
  end.

Definition init (num_digits num_samples max_question_len : nat) (w : world G)
  : result (t * world G) :=
  '(questions, answers, w1) ← init_loop num_digits max_question_len num_samples [] [] w;
  mret ({| num_digits := num_digits; num_samples := num_samples;
           max_question_len := max_question_len;
           questions := questions; answers := answers |}, w1).
End Init.

(** [__len__] *)
Definition len (self : t) : nat := num_samples self.

(** [__getitem__] *)
Definition getitem (self : t) (idx : Z) : result (tensor * Z) :=
  question ← list_getitem (questions self) idx;
  answer ← list_getitem (answers self) idx;
  mret (question, answer).

End ModifiedAdditionDataset.

(** Ids of a vocabulary of the given size. *)
Definition valid_id (size : nat) (i : Z) : Prop := 0 ≤ i < Z.of_nat size.

#[global] Instance valid_id_dec size i : Decision (valid_id size i).
Proof. unfold valid_id. apply _. Defined.

(** The question printed for the operands [a] and [b]. *)
Definition question_of (a b : Z) : string := str a +:+ "+" +:+ str b +:+ "=".

(** A row of the adder's input and its label belong to the same problem:
    the row decodes to the padded question of two operands in range and
    the label is their sum. *)
Definition row_of_problem (ndigit : nat) (row : list Z) (label : Z) : Prop :=
  ∃ a b, 0 ≤ a ≤ 10 ^ Z.of_nat ndigit - 1 ∧ 0 ≤ b ≤ 10 ^ Z.of_nat ndigit - 1
         ∧ Adder.decode_input row
           = Ok (ljust (question_of a b) (Adder.max_question_length ndigit))
         ∧ label = a + b.

(** A stored question of the dataset and its answer belong to the same
    problem: the question is the tensor of a row that decodes to the padded
    question of two operands in range, as long as the longer of the
    question and the padding width, and the answer is their sum. *)
Definition stored_problem (num_digits max_question_len : nat)
    (question : tensor) (answer : Z) : Prop :=
  ∃ a b row,
    question = T1 row
    ∧ 0 ≤ a ≤ 10 ^ Z.of_nat num_digits - 1 ∧ 0 ≤ b ≤ 10 ^ Z.of_nat num_digits - 1
    ∧ Adder.decode_input row = Ok (ljust (question_of a b) max_question_len)
    ∧ length row = Nat.max (String.length (question_of a b)) max_question_len
    ∧ answer = a + b.

(** A model for running the evaluation loops: it answers for one row of
    six ids with the sum of the ids. *)
Definition example_predict (x : tensor) : result Z :=
  match x with
  | T2 [row] => if decide (length row = 6%nat) then Ok (foldr Z.add 0 row)
                else Raise IndexError
  | _ => Raise RuntimeError
  end.

Ltac each_char c := destruct c as [[] [] [] [] [] [] [] []]; vm_compute; try done.

(** * Properties *)

(** ** The notebooks' printed samples *)

Example adder_encode_sample : Adder.encode_input "2+3=" = Ok [2; 10; 3; 11].
Proof. vm_compute. reflexivity. Qed.

Example adder_decode_sample : Adder.decode_input [2; 10; 3; 11] = Ok "2+3="%string.
Proof. vm_compute. reflexivity. Qed.

Example str_samples :
  str 0 = "0"%string ∧ str 198 = "198"%string ∧ str (-45) = "-45"%string
  ∧ str 1000000000000000000 = "1000000000000000000"%string.
Proof. vm_compute. auto. Qed.

Example nanogpt_vocab_size : NanoGPT.vocab_size NanoGPT.text = 123%nat.
Proof. vm_compute. reflexivity. Qed.

Example nanogpt_sample_words :
  take 20 (NanoGPT.unique_words NanoGPT.text)
  = ["'"; ","; "-"; "."; ":"; ";"; "?"; "a"; "accused"; "affection"; "against";
     "all"; "an"; "and"; "answer"; "appetite"; "are"; "as"; "bearing"; "belly"]%string.
Proof. vm_compute. reflexivity. Qed.

Example nanogpt_encode_sample :
  NanoGPT.encode NanoGPT.text "an answer" = Ok [12; 14].
Proof. vm_compute. reflexivity. Qed.

Example nanogpt_decode_sample :
  NanoGPT.decode NanoGPT.text [12; 14] = Ok "an answer"%string.
Proof. vm_compute. reflexivity. Qed.

Example nanogpt_data_sample :
  (take 20 <$> NanoGPT.data NanoGPT.text)
  = Ok [108; 94; 0; 97; 7; 52; 64; 3; 36; 23; 4; 114; 1; 44; 0; 53; 42; 48; 1; 90].
Proof. vm_compute. reflexivity. Qed.

Example nanogpt_decoded_sample :
  NanoGPT.decode NanoGPT.text
    [108; 94; 0; 97; 7; 52; 64; 3; 36; 23; 4; 114; 1; 44; 0; 53; 42; 48; 1; 90]
  = Ok "to stale ' t a little more. first citizen: well, i ' ll hear it, sir"%string.
Proof. vm_compute. reflexivity. Qed.

Example nanogpt_split_lengths :
  (length <$> NanoGPT.train_data NanoGPT.text) = Ok 119%nat
  ∧ (length <$> NanoGPT.val_data NanoGPT.text) = Ok 119%nat.
Proof. vm_compute. auto. Qed.

Example nanogpt_start_context :
  (length <$> NanoGPT.encode NanoGPT.text
     "sir: yet you must not think to fob off our disgrace with a tale")
  = Ok 15%nat.
Proof. vm_compute. reflexivity. Qed.

Example adder_batch_shapes :
  (λ r, (shape r.1.1, shape r.1.2)) <$>
    Adder.get_batch 32 2 (seed_all 42 42 42 (World 0 0 0))
  = Ok ([32; 6]%nat, [32]%nat).
Proof. vm_compute. reflexivity. Qed.

(** ** The error monad *)

Lemma bind_Ok {A B} (f : A → result B) (m : result A) (b : B) :
  m ≫= f = Ok b ↔ ∃ a, m = Ok a ∧ f a = Ok b.
Proof.
  destruct m as [a|e]; simpl.
  - split; [eauto | intros (a' & [= <-] & ?); done].
  - split; [done | intros (a' & ? & ?); done].
Qed.

Lemma comprehension_Ok {A B} (f : A → result B) (g : A → B) (l : list A) :
  Forall (λ x, f x = Ok (g x)) l → comprehension f l = Ok (g <$> l).
Proof.
  induction 1 as [|x l Hx _ IH]; simpl; [done|].
  rewrite Hx. simpl. rewrite IH. done.
Qed.

Lemma comprehension_Raise {A B} (f : A → result B) (g : A → B) (l1 l2 : list A) x e :
  Forall (λ x, f x = Ok (g x)) l1 → f x = Raise e →
  comprehension f (l1 ++ x :: l2) = Raise e.
Proof.
  induction 1 as [|y l Hy _ IH]; simpl; intros Hx.
  - rewrite Hx. done.
  - rewrite Hy. simpl. rewrite IH; done.
Qed.

(** ** Dictionaries built from [enumerate] *)

Section Dicts.
Context {K V : Type} `{Countable K}.
Implicit Types (l : list (K * V)) (m : gmap K V).

Lemma foldl_insert_notin l m k :
  k ∉ l.*1 → foldl (λ m kv, <[kv.1 := kv.2]> m) m l !! k = m !! k.
Proof.
  revert m. induction l as [|[k' v'] l IH]; intros m Hk; simpl; [done|].
  rewrite fmap_cons, not_elem_of_cons in Hk. destruct Hk as [Hne Hk].
  rewrite IH by done. simpl in Hne. by rewrite lookup_insert_ne.
Qed.

Lemma foldl_insert_in l m k v :
  NoDup l.*1 → (k, v) ∈ l → foldl (λ m kv, <[kv.1 := kv.2]> m) m l !! k = Some v.
Proof.
  revert m. induction l as [|[k' v'] l IH]; intros m Hnd Hin; simpl.
  - by apply elem_of_nil in Hin.
  - rewrite fmap_cons in Hnd. apply NoDup_cons in Hnd as [Hk' Hnd].
    apply elem_of_cons in Hin as [[= -> ->]|Hin].
    + rewrite foldl_insert_notin by done. simpl. by rewrite lookup_insert_eq.
    + by apply IH.
Qed.

Lemma dict_of_pairs_None l k : k ∉ l.*1 → dict_of_pairs l !! k = None.
Proof. intros Hk. unfold dict_of_pairs. by rewrite foldl_insert_notin. Qed.

Lemma dict_of_pairs_Some l k v :
  NoDup l.*1 → (k, v) ∈ l → dict_of_pairs l !! k = Some v.
Proof. apply foldl_insert_in. Qed.
End Dicts.

Lemma enumerate_keys {A} (l : list A) :
  (enumerate l).*1 = Z.of_nat <$> seq 0 (length l).
Proof.
  unfold enumerate. rewrite fmap_imap.
  rewrite (imap_ext _ (λ i _, Z.of_nat i)) by done.
  by rewrite imap_seq_0.
Qed.

Lemma enumerate_swap_keys {A} (l : list A) :
  ((λ p : Z * A, (p.2, p.1)) <$> enumerate l).*1 = l.
Proof.
  unfold enumerate. rewrite !fmap_imap.
  rewrite (imap_ext _ (λ _ x, x)) by done.
  induction l as [|x l IH]; [done|].
  rewrite imap_cons. f_equal. exact IH.
Qed.

Lemma NoDup_enumerate_keys {A} (l : list A) : NoDup (enumerate l).*1.
Proof.
  rewrite enumerate_keys. apply NoDup_fmap_2; [apply _|]. apply NoDup_seq.
Qed.

Lemma elem_of_enumerate {A} (l : list A) (n : nat) (x : A) :
  l !! n = Some x → (Z.of_nat n, x) ∈ enumerate l.
Proof.
  intros Hn. unfold enumerate.
  by apply (elem_of_lookup_imap_2 (λ i x, (Z.of_nat i, x))).
Qed.

(** [itos[i]] is the [i]-th element; outside the range there is no entry. *)
Lemma itos_lookup {A} (l : list A) (i : Z) :
  dict_of_pairs (enumerate l) !! i
  = if decide (0 ≤ i) then l !! Z.to_nat i else None.
Proof.
  destruct (decide (0 ≤ i)) as [Hi|Hi].
  - destruct (l !! Z.to_nat i) as [x|] eqn:Hx.
    + apply dict_of_pairs_Some; [apply NoDup_enumerate_keys|].
      replace i with (Z.of_nat (Z.to_nat i)) at 1 by lia.
      by apply elem_of_enumerate.
    + apply dict_of_pairs_None. rewrite enumerate_keys.
      intros (n & -> & Hn)%list_elem_of_fmap.
      apply elem_of_seq in Hn. apply lookup_ge_None in Hx. lia.
  - apply dict_of_pairs_None. rewrite enumerate_keys.
    intros (n & -> & Hn)%list_elem_of_fmap. lia.
Qed.

(** [stoi[x]] is the position of [x] when the list has no duplicates. *)
Lemma stoi_lookup_Some {A} `{Countable A} (l : list A) (n : nat) (x : A) :
  NoDup l → l !! n = Some x →
  dict_of_pairs ((λ p : Z * A, (p.2, p.1)) <$> enumerate l) !! x = Some (Z.of_nat n).
Proof.
  intros Hnd Hn. apply dict_of_pairs_Some.
  - by rewrite enumerate_swap_keys.
  - apply list_elem_of_fmap. exists (Z.of_nat n, x). split; [done|].
    by apply elem_of_enumerate.
Qed.

Lemma stoi_lookup_None {A} `{Countable A} (l : list A) (x : A) :
  x ∉ l → dict_of_pairs ((λ p : Z * A, (p.2, p.1)) <$> enumerate l) !! x = None.
Proof.
  intros Hx. apply dict_of_pairs_None. by rewrite enumerate_swap_keys.
Qed.

Lemma getitem_str_Some {V} (d : gmap ascii V) c v :
  d !! c = Some v → getitem_str d c = Ok v.
Proof. intros Hc. unfold getitem_str. by rewrite Hc. Qed.

Lemma getitem_str_None {V} (d : gmap ascii V) c :
  d !! c = None → getitem_str d c = Raise (KeyError (KStr (String c ""))).
Proof. intros Hc. unfold getitem_str. by rewrite Hc. Qed.

Lemma getitem_word_Some {V} (d : gmap string V) w v :
  d !! w = Some v → getitem_word d w = Ok v.
Proof. intros Hw. unfold getitem_word. by rewrite Hw. Qed.

Lemma getitem_int_Some {V} (d : gmap Z V) i v :
  d !! i = Some v → getitem_int d i = Ok v.
Proof. intros Hi. unfold getitem_int. by rewrite Hi. Qed.

Lemma comprehension_cons {A B} (f : A → result B) (x : A) (l : list A) :
  comprehension f (x :: l) = f x ≫= λ y, comprehension f l ≫= λ ys, Ok (y :: ys).
Proof. reflexivity. Qed.

Lemma comprehension_Forall2 {A B} (f : A → result B) (l : list A) (k : list B) :
  Forall2 (λ x y, f x = Ok y) l k → comprehension f l = Ok k.
Proof.
  induction 1 as [|x y l k Hx _ IH]; simpl; [done|].
  rewrite Hx. simpl. rewrite IH. done.
Qed.

Lemma comprehension_length {A B} (f : A → result B) (l : list A) (k : list B) :
  comprehension f l = Ok k → length k = length l.
Proof.
  revert k. induction l as [|x l IH]; intros k; simpl.
  - by intros [= <-].
  - intros (y & _ & (ys & Hys & [= <-])%bind_Ok)%bind_Ok. simpl. f_equal. by apply IH.
Qed.

(** ** Strings *)

Lemma chars_app (s1 s2 : string) : chars (s1 +:+ s2) = chars s1 ++ chars s2.
Proof. induction s1 as [|c s1 IH]; simpl; [done|]. unfold chars in *. simpl. by rewrite IH. Qed.

Lemma length_chars (s : string) : length (chars s) = String.length s.
Proof. induction s as [|c s IH]; simpl; [done|]. unfold chars in *. simpl. by rewrite IH. Qed.

Lemma chars_of_chars (l : list ascii) : chars (of_chars l) = l.
Proof. apply list_ascii_of_string_of_list_ascii. Qed.

Lemma of_chars_chars (s : string) : of_chars (chars s) = s.
Proof. apply string_of_list_ascii_of_string. Qed.

Lemma chars_inj (s1 s2 : string) : chars s1 = chars s2 → s1 = s2.
Proof. intros Heq. rewrite <- (of_chars_chars s1), <- (of_chars_chars s2). by rewrite Heq. Qed.

Lemma of_chars_app (l1 l2 : list ascii) : of_chars (l1 ++ l2) = of_chars l1 +:+ of_chars l2.
Proof. apply chars_inj. by rewrite chars_app, !chars_of_chars. Qed.

Lemma string_length_app (s1 s2 : string) :
  String.length (s1 +:+ s2) = (String.length s1 + String.length s2)%nat.
Proof. by rewrite <- !length_chars, chars_app, length_app. Qed.

Lemma string_app_assoc (s1 s2 s3 : string) : (s1 +:+ s2) +:+ s3 = s1 +:+ (s2 +:+ s3).
Proof. apply chars_inj. by rewrite !chars_app, app_assoc. Qed.

Lemma string_app_nil_r (s : string) : s +:+ "" = s.
Proof. apply chars_inj. by rewrite chars_app, app_nil_r. Qed.

Lemma ljust_length (s : string) (width : nat) :
  String.length (ljust s width) = Nat.max (String.length s) width.
Proof.
  unfold ljust. rewrite string_length_app, <- (length_chars (of_chars _)).
  rewrite chars_of_chars, length_replicate. lia.
Qed.

Lemma chars_ljust (s : string) (width : nat) :
  chars (ljust s width) = chars s ++ replicate (width - String.length s) " "%char.
Proof. unfold ljust. by rewrite chars_app, chars_of_chars. Qed.

(** ** Decimal printing *)

Lemma digit_value_char (d : Z) : 0 ≤ d < 10 → digit_value (digit_char d) = d.
Proof.
  intros Hd. unfold digit_value, digit_char.
  rewrite nat_ascii_embedding by lia. lia.
Qed.

Lemma str_digits_length (fuel : nat) : ∀ (k : nat) (n : Z) (acc : string),
  (1 ≤ k)%nat → 0 ≤ n < 10 ^ Z.of_nat k →
  (String.length (str_digits fuel n acc) ≤ k + String.length acc)%nat.
Proof.
  induction fuel as [|fuel IH]; intros k n acc Hk Hn; simpl; [lia|].
  destruct (Z.ltb_spec n 10) as [Hlt|Hge]; simpl; [lia|].
  destruct k as [|[|k]]; [lia| change (10 ^ Z.of_nat 1) with 10 in Hn; lia |].
  specialize (IH (S k) (n `div` 10) (String (digit_char (n `mod` 10)) acc)).
  simpl String.length in IH.
  assert (0 ≤ n `div` 10 < 10 ^ Z.of_nat (S k)); [|lia].
  split; [apply Z.div_pos; lia|].
  apply Z.div_lt_upper_bound; [lia|].
  replace (Z.of_nat (S (S k))) with (Z.succ (Z.of_nat (S k))) in Hn by lia.
  rewrite Z.pow_succ_r in Hn by lia. lia.
Qed.

Lemma str_digits_chars (fuel : nat) : ∀ (n : Z) (acc : string),
  0 ≤ n < 2 ^ Z.of_nat fuel →
  ∃ ds, chars (str_digits fuel n acc) = ds ++ chars acc
        ∧ Forall is_digit ds
        ∧ ∀ v, foldl (λ v c, 10 * v + digit_value c) v ds
               = v * 10 ^ Z.of_nat (length ds) + n.
Proof.
  induction fuel as [|fuel IH]; intros n acc Hn.
  - simpl in Hn. exists []. simpl. split; [done|]. split; [done|]. intros v. lia.
  - simpl str_digits.
    assert (Hmod : 0 ≤ n `mod` 10 < 10) by (apply Z.mod_pos_bound; lia).
    destruct (Z.ltb_spec n 10) as [Hlt|Hge].
    + exists [digit_char (n `mod` 10)]. split; [done|]. split.
      * constructor; [|done]. by exists (n `mod` 10).
      * intros v. simpl. rewrite digit_value_char by done.
        rewrite Z.mod_small by lia. lia.
    + destruct (IH (n `div` 10) (String (digit_char (n `mod` 10)) acc))
        as (ds & Hds & Hdig & Hval).
      { split; [apply Z.div_pos; lia|].
        apply Z.div_lt_upper_bound; [lia|].
        rewrite Nat2Z.inj_succ, Z.pow_succ_r in Hn by lia. lia. }
      exists (ds ++ [digit_char (n `mod` 10)]). split; [|split].
      * rewrite Hds. unfold chars. simpl. by rewrite <- app_assoc.
      * apply Forall_app. split; [done|]. constructor; [|done]. by exists (n `mod` 10).
      * intros v. rewrite foldl_app. simpl. rewrite Hval, digit_value_char by done.
        rewrite length_app. simpl length.
        rewrite Nat2Z.inj_add, Z.pow_add_r by lia.
        change (10 ^ Z.of_nat 1) with 10.
        pose proof (Z.div_mod n 10). lia.
Qed.

Lemma str_fuel (n : Z) : 0 ≤ n → n < 2 ^ Z.of_nat (S (Z.to_nat (Z.log2 n))).
Proof.
  intros Hn. rewrite Nat2Z.inj_succ, Z2Nat.id by apply Z.log2_nonneg.
  destruct (decide (n = 0)) as [->|Hne]; [done|].
  apply Z.log2_spec. lia.
Qed.

(** [int(str(n)) = n]: the fuel of [str] is enough and the digits are those
    of [n]. *)
Lemma int_of_digits_str (n : Z) : 0 ≤ n → int_of_digits (str n) = n.
Proof.
  intros Hn. unfold str, int_of_digits.
  destruct (Z.ltb_spec n 0) as [?|_]; [lia|].
  destruct (str_digits_chars _ n "" (conj Hn (str_fuel n Hn))) as (ds & -> & _ & Hval).
  simpl chars. rewrite app_nil_r, Hval. lia.
Qed.

Lemma str_is_digits (n : Z) : 0 ≤ n → Forall is_digit (chars (str n)).
Proof.
  intros Hn. unfold str.
  destruct (Z.ltb_spec n 0) as [?|_]; [lia|].
  destruct (str_digits_chars _ n "" (conj Hn (str_fuel n Hn))) as (ds & -> & Hdig & _).
  simpl chars. by rewrite app_nil_r.
Qed.

Lemma str_length (k : nat) (n : Z) :
  (1 ≤ k)%nat → 0 ≤ n ≤ 10 ^ Z.of_nat k - 1 → (String.length (str n) ≤ k)%nat.
Proof.
  intros Hk Hn. unfold str.
  destruct (Z.ltb_spec n 0) as [?|_]; [lia|].
  pose proof (str_digits_length (S (Z.to_nat (Z.log2 n))) k n "" Hk) as Hlen.
  change (String.length "") with 0%nat in Hlen. lia.
Qed.

(** ** Random draws *)

Section RandomFacts.
Context {G : Type} `{RandomGen G}.

Lemma random_randint_spec (a b : Z) (w : world G) :
  a ≤ b →
  ∃ r w', random_randint a b w = Ok (r, w') ∧ a ≤ r ≤ b
          ∧ np_random w' = np_random w ∧ torch_random w' = torch_random w.
Proof.
  intros Hab. unfold random_randint.
  destruct (Z.ltb_spec 0 (b - a + 1)) as [Hpos|?]; [|lia].
  pose proof (rng_below_range (b - a + 1) (py_random w) Hpos) as Hr.
  destruct (rng_below (b - a + 1) (py_random w)) as [r g]. simpl in Hr.
  eexists _, _. split; [done|]. simpl. split; [lia|done].
Qed.

Lemma torch_draws_spec (high : Z) (n : nat) : ∀ w : world G,
  0 < high →
  length (torch_draws high n w).1 = n
  ∧ Forall (λ i, 0 ≤ i < high) (torch_draws high n w).1
  ∧ py_random (torch_draws high n w).2 = py_random w
  ∧ np_random (torch_draws high n w).2 = np_random w.
Proof.
  induction n as [|n IH]; intros w Hhigh; simpl; [done|].
  unfold torch_draw.
  pose proof (rng_below_range high (torch_random w) Hhigh) as Hr.
  destruct (rng_below high (torch_random w)) as [r g]. simpl in Hr.
  specialize (IH {| py_random := py_random w; np_random := np_random w;
                    torch_random := g |} Hhigh).
  destruct (torch_draws high n _) as [rs w2]. simpl in *.
  destruct IH as (Hlen & Hall & Hpy & Hnp).
  split; [by f_equal|]. split; [by constructor|done].
Qed.
End RandomFacts.

(** ** The adder tutorial *)

Lemma adder_vocab_NoDup : NoDup (chars Adder.input_chars).
Proof. apply (bool_decide_unpack _). by vm_compute. Qed.

Lemma adder_stoi_itos (c : ascii) :
  c ∈ chars Adder.input_chars →
  ∃ i, 0 ≤ i < Z.of_nat Adder.input_vocab_size
       ∧ Adder.input_stoi !! c = Some i ∧ Adder.input_itos !! i = Some c.
Proof.
  intros (n & Hn)%list_elem_of_lookup. exists (Z.of_nat n).
  pose proof (lookup_lt_Some _ _ _ Hn) as Hlt. rewrite length_chars in Hlt.
  split; [unfold Adder.input_vocab_size; lia|]. split.
  - by apply stoi_lookup_Some; [apply adder_vocab_NoDup|].
  - unfold Adder.input_itos. rewrite itos_lookup.
    rewrite decide_True by lia. by rewrite Nat2Z.id.
Qed.

Lemma adder_itos_stoi (i : Z) :
  0 ≤ i < Z.of_nat Adder.input_vocab_size →
  ∃ c, c ∈ chars Adder.input_chars
       ∧ Adder.input_itos !! i = Some c ∧ Adder.input_stoi !! c = Some i.
Proof.
  intros Hi. unfold Adder.input_vocab_size in Hi. rewrite <- length_chars in Hi.
  destruct (lookup_lt_is_Some_2 (chars Adder.input_chars) (Z.to_nat i)) as [c Hc]; [lia|].
  exists c. split; [by eapply list_elem_of_lookup_2|]. split.
  - unfold Adder.input_itos. rewrite itos_lookup. by rewrite decide_True by lia.
  - pose proof (stoi_lookup_Some _ _ _ adder_vocab_NoDup Hc) as Hs.
    rewrite Z2Nat.id in Hs by lia. exact Hs.
Qed.

Lemma adder_stoi_None (c : ascii) :
  c ∉ chars Adder.input_chars → Adder.input_stoi !! c = None.
Proof. apply stoi_lookup_None. Qed.

Lemma encode_input_known (s : string) :
  known_chars s →
  ∃ l, Adder.encode_input s = Ok l ∧ length l = String.length s
       ∧ Forall (λ i, 0 ≤ i < Z.of_nat Adder.input_vocab_size) l
       ∧ Adder.decode_input l = Ok s.
Proof.
  intros Hs. unfold known_chars in Hs.
  assert (∃ l, Forall2 (λ c i, Adder.input_stoi !! c = Some i
                               ∧ Adder.input_itos !! i = Some c
                               ∧ 0 ≤ i < Z.of_nat Adder.input_vocab_size) (chars s) l)
    as [l Hl].
  { induction Hs as [|c cs Hc _ [l IH]]; [by exists []|].
    destruct (adder_stoi_itos c Hc) as (i & ? & ? & ?). exists (i :: l). by constructor. }
  exists l. split; [|split; [|split]].
  - apply comprehension_Forall2. eapply Forall2_impl; [exact Hl|].
    intros c i (Hc & _). unfold getitem_str. by rewrite Hc.
  - rewrite <- length_chars. symmetry. by eapply Forall2_length.
  - eapply Forall2_Forall_r; [exact Hl|]. apply Forall_forall. intros c _ i (_ & _ & ?). done.
  - unfold Adder.decode_input.
    rewrite (comprehension_Forall2 _ l (chars s)).
    + simpl. by rewrite of_chars_chars.
    + apply Forall2_flip. eapply Forall2_impl; [exact Hl|].
      intros c i (_ & Hi & _). unfold getitem_int. by rewrite Hi.
Qed.

Lemma encode_input_unknown (s : string) :
  ¬ known_chars s →
  ∃ c, c ∈ chars s ∧ (c ∉ chars Adder.input_chars)
       ∧ Adder.encode_input s = Raise (KeyError (KStr (String c ""))).
Proof.
  unfold known_chars, Adder.encode_input. generalize (chars s). clear s.
  induction l as [|c l IH]; intros Hnot.
  - destruct Hnot. constructor.
  - destruct (decide (c ∈ chars Adder.input_chars)) as [Hc|Hc].
    + destruct IH as (c' & Hin & Hout & Hraise).
      { intros Hl. apply Hnot. by constructor. }
      exists c'. split; [by right|]. split; [done|].
      rewrite comprehension_cons. destruct (adder_stoi_itos c Hc) as (i & _ & Hi & _).
      rewrite (getitem_str_Some _ _ _ Hi). cbn [mbind result_bind]. by rewrite Hraise.
    + exists c. split; [by left|]. split; [done|].
      rewrite comprehension_cons.
      by rewrite (getitem_str_None _ _ (adder_stoi_None c Hc)).
Qed.

(** The first character outside the input vocabulary: a string that is not
    over the vocabulary splits, in one way only, into a known prefix, an
    unknown character and the rest; [encode_input] raises at that
    character whatever follows it. *)
Lemma first_unknown_char (s : string) :
  ¬ known_chars s →
  ∃ before c after,
    s = before +:+ String c after ∧ known_chars before
    ∧ (c ∉ chars Adder.input_chars).
Proof.
  induction s as [|c s IH]; intros Hnot.
  - destruct Hnot. constructor.
  - destruct (decide (c ∈ chars Adder.input_chars)) as [Hc|Hc].
    + destruct IH as (before & c' & after & -> & Hbefore & Hout).
      { intros Hs. apply Hnot. by constructor. }
      exists (String c before), c', after. split; [done|]. split; [|done].
      by constructor.
    + exists ""%string, c, s. split; [done|]. split; [constructor|done].
Qed.

Lemma first_unknown_char_unique (before1 before2 after1 after2 : string) (c1 c2 : ascii) :
  before1 +:+ String c1 after1 = before2 +:+ String c2 after2 →
  known_chars before1 → (c1 ∉ chars Adder.input_chars) →
  known_chars before2 → (c2 ∉ chars Adder.input_chars) →
  before1 = before2 ∧ c1 = c2 ∧ after1 = after2.
Proof.
  revert before2. induction before1 as [|a before1 IH]; intros [|b before2] Heq H1 Hc1 H2 Hc2.
  - by injection Heq as -> ->.
  - injection Heq as -> _. destruct Hc1. by inversion H2.
  - injection Heq as -> _. destruct Hc2. by inversion H1.
  - injection Heq as -> Heq.
    destruct (IH before2 Heq) as (-> & -> & ->); [by inversion H1|done|by inversion H2|done|].
    done.
Qed.

Lemma encode_input_raises_at (before after : string) (c : ascii) :
  known_chars before → (c ∉ chars Adder.input_chars) →
  Adder.encode_input (before +:+ String c after)
  = Raise (KeyError (KStr (String c ""))).
Proof.
  intros Hbefore Hc. unfold Adder.encode_input.
  induction before as [|a before IH].
  - change (chars ("" +:+ String c after)) with (c :: chars after).
    rewrite comprehension_cons.
    by rewrite (getitem_str_None _ _ (adder_stoi_None c Hc)).
  - change (chars (String a before +:+ String c after))
      with (a :: chars (before +:+ String c after)).
    rewrite comprehension_cons.
    assert (a ∈ chars Adder.input_chars) as Ha by (by inversion Hbefore).
    destruct (adder_stoi_itos a Ha) as (i & _ & Hi & _).
    rewrite (getitem_str_Some _ _ _ Hi). cbn [mbind result_bind].
    rewrite IH; [done|by inversion Hbefore].
Qed.

Lemma digit_known (c : ascii) : is_digit c → c ∈ chars Adder.input_chars.
Proof.
  intros (d & Hd & ->).
  assert (d = 0 ∨ d = 1 ∨ d = 2 ∨ d = 3 ∨ d = 4 ∨ d = 5 ∨ d = 6 ∨ d = 7 ∨ d = 8 ∨ d = 9)
    as Hcases by lia.
  repeat (destruct Hcases as [->|Hcases]; [apply (bool_decide_unpack _); by vm_compute|]).
  subst d. apply (bool_decide_unpack _). by vm_compute.
Qed.

Section AdderFacts.
Context {G : Type} `{RandomGen G}.

Lemma generate_addition_data_spec (num_digits : nat) (w : world G) :
  ∃ a b w',
    Adder.generate_addition_data num_digits w
      = Ok (str a +:+ "+" +:+ str b +:+ "=", a + b, w')
    ∧ 0 ≤ a ≤ 10 ^ Z.of_nat num_digits - 1
    ∧ 0 ≤ b ≤ 10 ^ Z.of_nat num_digits - 1
    ∧ np_random w' = np_random w ∧ torch_random w' = torch_random w.
Proof.
  assert (0 ≤ 10 ^ Z.of_nat num_digits - 1) as Hhi.
  { pose proof (Z.pow_pos_nonneg 10 (Z.of_nat num_digits)). lia. }
  destruct (random_randint_spec 0 _ w Hhi) as (a & w1 & Ha & Hra & Hnp1 & Ht1).
  destruct (random_randint_spec 0 _ w1 Hhi) as (b & w2 & Hb & Hrb & Hnp2 & Ht2).
  exists a, b, w2. unfold Adder.generate_addition_data.
  rewrite Ha. simpl. rewrite Hb. simpl.
  split; [done|]. split; [done|]. split; [done|]. split; congruence.
Qed.

Lemma question_known (a b : Z) :
  0 ≤ a → 0 ≤ b → known_chars (str a +:+ "+" +:+ str b +:+ "=").
Proof.
  intros Ha Hb. unfold known_chars. rewrite !chars_app.
  repeat apply Forall_app_2.
  - eapply Forall_impl; [by apply str_is_digits|]. apply digit_known.
  - apply (bool_decide_unpack _). by vm_compute.
  - eapply Forall_impl; [by apply str_is_digits|]. apply digit_known.
  - apply (bool_decide_unpack _). by vm_compute.
Qed.

Lemma question_length (k : nat) (a b : Z) :
  (1 ≤ k)%nat → 0 ≤ a ≤ 10 ^ Z.of_nat k - 1 → 0 ≤ b ≤ 10 ^ Z.of_nat k - 1 →
  (String.length (str a +:+ "+" +:+ str b +:+ "=") ≤ Adder.max_question_length k)%nat.
Proof.
  intros Hk Ha Hb. rewrite !string_length_app.
  pose proof (str_length k a Hk Ha). pose proof (str_length k b Hk Hb).
  unfold Adder.max_question_length. simpl String.length. lia.
Qed.

Lemma ljust_known (s : string) (width : nat) :
  known_chars s → known_chars (ljust s width).
Proof.
  unfold known_chars. rewrite chars_ljust. intros Hs.
  apply Forall_app_2; [done|]. apply Forall_replicate.
  apply (bool_decide_unpack _). by vm_compute.
Qed.
End AdderFacts.

(** ** Tensors *)

Lemma same_length_intro (rows : list (list Z)) (k : nat) :
  Forall (λ r, length r = k) rows → same_length rows = true.
Proof.
  intros Hrows. unfold same_length. apply forallb_forall.
  intros r Hr%list_elem_of_In. apply Nat.eqb_eq.
  rewrite Forall_forall in Hrows. rewrite (Hrows r Hr).
  destruct rows as [|r0 rows]; [by apply elem_of_nil in Hr|].
  simpl. symmetry. apply Hrows. by left.
Qed.

Lemma forallb_Forall {A} (p : A → bool) (l : list A) :
  Forall (λ x, p x = true) l → forallb p l = true.
Proof.
  intros Hl. apply forallb_forall. intros x Hx%list_elem_of_In.
  rewrite Forall_forall in Hl. by apply Hl.
Qed.

Lemma fits_int64_intro (z : Z) : - 2 ^ 63 ≤ z ≤ 2 ^ 63 - 1 → fits_int64 z = true.
Proof.
  intros Hz. unfold fits_int64, int64_min, int64_max.
  apply andb_true_intro. split; apply Z.leb_le; lia.
Qed.

Lemma shape_rows (rows : list (list Z)) (n k : nat) :
  (0 < n)%nat → length rows = n → Forall (λ r, length r = k) rows →
  shape (T2 rows) = [n; k].
Proof.
  intros Hn Hlen Hrows. simpl. rewrite Hlen.
  destruct rows as [|r rows]; [simpl in Hlen; lia|].
  simpl. by rewrite (Forall_inv Hrows).
Qed.

Section AdderBatch.
Context {G : Type} `{RandomGen G}.
Variable ndigit : nat.

(** The padded length of a question: [ljust] pads up to the maximum
    question length and leaves a longer question as it is. *)
Lemma padded_question_spec (w : world G) :
  ∃ a b w' enc,
    Adder.generate_addition_data ndigit w
      = Ok (str a +:+ "+" +:+ str b +:+ "=", a + b, w')
    ∧ 0 ≤ a ≤ 10 ^ Z.of_nat ndigit - 1 ∧ 0 ≤ b ≤ 10 ^ Z.of_nat ndigit - 1
    ∧ ((1 ≤ ndigit)%nat →
       (String.length (str a +:+ "+" +:+ str b +:+ "=")
        ≤ Adder.max_question_length ndigit)%nat)
    ∧ Adder.encode_input
        (ljust (str a +:+ "+" +:+ str b +:+ "=") (Adder.max_question_length ndigit))
      = Ok enc
    ∧ length enc = Nat.max (String.length (str a +:+ "+" +:+ str b +:+ "="))
                           (Adder.max_question_length ndigit)
    ∧ Forall (λ i, 0 ≤ i < Z.of_nat Adder.input_vocab_size) enc
    ∧ np_random w' = np_random w ∧ torch_random w' = torch_random w.
Proof.
  destruct (generate_addition_data_spec ndigit w) as (a & b & w' & Hgen & Ha & Hb & Hnp & Ht).
  destruct (encode_input_known
              (ljust (str a +:+ "+" +:+ str b +:+ "=") (Adder.max_question_length ndigit)))
    as (enc & Henc & Hlenc & Hrange & _).
  { apply ljust_known. apply question_known; lia. }
  exists a, b, w', enc. repeat (split; [done|]).
  split; [intros Hnd; by apply question_length|].
  split; [done|]. split; [|done]. by rewrite Hlenc, ljust_length.
Qed.

Lemma fill_batch_spec (n : nat) : ∀ (questions : list (list Z)) (answers : list Z)
    (w : world G),
  ∃ qs ans w',
    Adder.fill_batch ndigit n questions answers w
      = Ok (questions ++ qs, answers ++ ans, w')
    ∧ length qs = n ∧ length ans = n
    ∧ Forall (λ q, ((1 ≤ ndigit)%nat → length q = Adder.max_question_length ndigit)
                   ∧ Forall (λ i, 0 ≤ i < Z.of_nat Adder.input_vocab_size) q) qs
    ∧ Forall (λ a, 0 ≤ a ≤ Adder.max_answer ndigit) ans
    ∧ np_random w' = np_random w ∧ torch_random w' = torch_random w.
Proof.
  induction n as [|n IH]; intros questions answers w.
  - exists [], [], w. simpl. rewrite !app_nil_r. done.
  - destruct (padded_question_spec w)
      as (a & b & w1 & enc & Hgen & Ha & Hb & Hq & Henc & Hlen & Hrange & Hnp & Ht).
    destruct (IH (questions ++ [enc]) (answers ++ [a + b]) w1)
      as (qs & ans & w' & Hfill & Hlq & Hla & Hqs & Hans & Hnp' & Ht').
    exists (enc :: qs), ((a + b) :: ans), w'.
    cbn [Adder.fill_batch]. rewrite Hgen. cbn [mbind result_bind].
    rewrite Henc. cbn [mbind result_bind]. rewrite Hfill.
    rewrite <- !app_assoc. simpl.
    split; [done|]. split; [by f_equal|]. split; [by f_equal|].
    split; [|split; [|split; congruence]].
    + constructor; [|done]. split; [|done]. intros Hnd. specialize (Hq Hnd). lia.
    + constructor; [|done]. unfold Adder.max_answer. lia.
Qed.
End AdderBatch.

Section AdderGetBatch.
Context {G : Type} `{RandomGen G}.
Variables batch_size ndigit : nat.
Hypothesis batch_size_pos : (1 ≤ batch_size)%nat.
Hypothesis ndigit_range : (1 ≤ ndigit ≤ 18)%nat.

Lemma max_answer_fits : Adder.max_answer ndigit ≤ 2 ^ 63 - 1.
Proof.
  unfold Adder.max_answer.
  assert (10 ^ Z.of_nat ndigit ≤ 10 ^ 18); [|lia].
  apply Z.pow_le_mono_r; lia.
Qed.

Lemma adder_get_batch_spec (w : world G) :
  ∃ rows ys w',
    Adder.get_batch batch_size ndigit w = Ok (T2 rows, T1 ys, w')
    ∧ length rows = batch_size ∧ length ys = batch_size
    ∧ Forall (λ q, length q = Adder.max_question_length ndigit
                   ∧ Forall (λ i, 0 ≤ i < Z.of_nat Adder.input_vocab_size) q) rows
    ∧ Forall (λ a, 0 ≤ a ≤ Adder.max_answer ndigit) ys
    ∧ np_random w' = np_random w ∧ torch_random w' = torch_random w.
Proof.
  destruct (fill_batch_spec ndigit batch_size [] [] w)
    as (qs & ans & w' & Hfill & Hlq & Hla & Hqs' & Hans & Hnp & Ht).
  assert (Hqs : Forall (λ q, length q = Adder.max_question_length ndigit
                   ∧ Forall (λ i, 0 ≤ i < Z.of_nat Adder.input_vocab_size) q) qs).
  { eapply Forall_impl; [exact Hqs'|]. intros q [Hq ?]. split; [|done]. apply Hq. lia. }
  exists qs, ans, w'. unfold Adder.get_batch. rewrite Hfill. cbn [mbind result_bind].
  simpl app.
  assert (torch_tensor2 qs = Ok (T2 qs)) as ->.
  { unfold torch_tensor2. destruct qs as [|q qs]; [simpl in Hlq; lia|].
    rewrite (same_length_intro _ (Adder.max_question_length ndigit)).
    - simpl negb. cbv iota. rewrite forallb_Forall; [done|].
      eapply Forall_impl; [exact Hqs|]. intros r [_ Hr]. apply forallb_Forall.
      eapply Forall_impl; [exact Hr|]. intros i Hi. apply fits_int64_intro.
      unfold Adder.input_vocab_size in Hi. simpl in Hi. lia.
    - eapply Forall_impl; [exact Hqs|]. by intros r [? _]. }
  cbn [mbind result_bind].
  assert (torch_tensor1 ans = Ok (T1 ans)) as ->.
  { unfold torch_tensor1. rewrite forallb_Forall; [done|].
    eapply Forall_impl; [exact Hans|]. intros a Ha. apply fits_int64_intro.
    pose proof max_answer_fits. cbv beta in Ha. lia. }
  done.
Qed.
End AdderGetBatch.

(** ** Vocabularies *)

(** The two dictionaries built from a duplicate-free list are inverse to
    each other. *)
Section Enumerated.
Context {A : Type} `{Countable A}.
Variable l : list A.
Hypothesis l_NoDup : NoDup l.

Local Abbreviation to_id := (dict_of_pairs ((λ p : Z * A, (p.2, p.1)) <$> enumerate l)).
Local Abbreviation of_id := (dict_of_pairs (enumerate l)).

Lemma enum_stoi_itos (x : A) :
  x ∈ l → ∃ i, 0 ≤ i < Z.of_nat (length l) ∧ to_id !! x = Some i ∧ of_id !! i = Some x.
Proof.
  intros (n & Hn)%list_elem_of_lookup. exists (Z.of_nat n).
  pose proof (lookup_lt_Some _ _ _ Hn) as Hlt.
  split; [lia|]. split.
  - by apply stoi_lookup_Some.
  - rewrite itos_lookup, decide_True by lia. by rewrite Nat2Z.id.
Qed.

Lemma enum_itos_stoi (i : Z) :
  0 ≤ i < Z.of_nat (length l) →
  ∃ x, x ∈ l ∧ of_id !! i = Some x ∧ to_id !! x = Some i.
Proof.
  intros Hi.
  destruct (lookup_lt_is_Some_2 l (Z.to_nat i)) as [x Hx]; [lia|].
  exists x. split; [by eapply list_elem_of_lookup_2|]. split.
  - rewrite itos_lookup. by rewrite decide_True by lia.
  - pose proof (stoi_lookup_Some _ _ _ l_NoDup Hx) as Hs.
    rewrite Z2Nat.id in Hs by lia. exact Hs.
Qed.

Lemma enum_itos_range (i : Z) (x : A) :
  of_id !! i = Some x → 0 ≤ i < Z.of_nat (length l).
Proof.
  rewrite itos_lookup. destruct (decide (0 ≤ i)) as [Hi|]; [|done].
  intros Hx%lookup_lt_Some. lia.
Qed.
End Enumerated.

Section NanoVocabulary.
Variable text : string.

Lemma unique_words_NoDup : NoDup (NanoGPT.unique_words text).
Proof.
  unfold NanoGPT.unique_words. rewrite merge_sort_Permutation. apply NoDup_elements.
Qed.

Lemma elem_of_unique_words (w : string) :
  w ∈ NanoGPT.unique_words text ↔ w ∈ NanoGPT.words text.
Proof.
  unfold NanoGPT.unique_words. rewrite merge_sort_Permutation.
  rewrite elem_of_elements. apply elem_of_list_to_set.
Qed.

Lemma unique_words_sorted : Sorted String.le (NanoGPT.unique_words text).
Proof. apply Sorted_merge_sort. apply _. Qed.

Lemma nano_stoi_itos (w : string) :
  w ∈ NanoGPT.unique_words text →
  ∃ i, 0 ≤ i < Z.of_nat (NanoGPT.vocab_size text)
       ∧ NanoGPT.stoi text !! w = Some i ∧ NanoGPT.itos text !! i = Some w.
Proof. apply enum_stoi_itos, unique_words_NoDup. Qed.

Lemma nano_itos_stoi (i : Z) :
  0 ≤ i < Z.of_nat (NanoGPT.vocab_size text) →
  ∃ w, w ∈ NanoGPT.unique_words text
       ∧ NanoGPT.itos text !! i = Some w ∧ NanoGPT.stoi text !! w = Some i.
Proof. apply enum_itos_stoi, unique_words_NoDup. Qed.

Lemma nano_stoi_None (w : string) :
  w ∉ NanoGPT.unique_words text → NanoGPT.stoi text !! w = None.
Proof. apply stoi_lookup_None. Qed.

Lemma nano_stoi_is_Some (w : string) :
  is_Some (NanoGPT.stoi text !! w) ↔ w ∈ NanoGPT.unique_words text.
Proof.
  split.
  - intros [i Hi]. destruct (decide (w ∈ NanoGPT.unique_words text)) as [|Hw]; [done|].
    rewrite (nano_stoi_None w Hw) in Hi. done.
  - intros (i & _ & Hi & _)%nano_stoi_itos. by exists i.
Qed.

Lemma known_words_known (s : string) :
  Forall (λ w, w ∈ NanoGPT.unique_words text) (known_words text s).
Proof.
  apply Forall_forall. intros w [Hw _]%list_elem_of_filter.
  by apply nano_stoi_is_Some.
Qed.

Lemma encode_ids (ws : list string) :
  Forall (λ w, w ∈ NanoGPT.unique_words text) ws →
  comprehension (getitem_word (NanoGPT.stoi text)) ws = Ok (word_id text <$> ws).
Proof.
  intros Hws. apply comprehension_Ok. eapply Forall_impl; [exact Hws|].
  intros w (i & _ & Hi & _)%nano_stoi_itos. unfold word_id. rewrite Hi.
  by apply getitem_word_Some.
Qed.

(** [encode] never raises: it returns the ids of the known words. *)
Lemma encode_Ok (s : string) :
  NanoGPT.encode text s = Ok (word_id text <$> known_words text s).
Proof. unfold NanoGPT.encode. cbv zeta. apply encode_ids, known_words_known. Qed.

Lemma decode_ids (ws : list string) :
  Forall (λ w, w ∈ NanoGPT.unique_words text) ws →
  NanoGPT.decode text (word_id text <$> ws)
  = Ok (foldl NanoGPT.decode_step "" (enumerate ws)).
Proof.
  intros Hws. unfold NanoGPT.decode. cbv zeta.
  rewrite (comprehension_Forall2 _ _ ws); [done|].
  apply Forall2_fmap_l, Forall_Forall2_diag.
  eapply Forall_impl; [exact Hws|].
  intros w (i & _ & Hi & Hw)%nano_stoi_itos. unfold compose, word_id.
  rewrite Hi. by apply getitem_int_Some.
Qed.
End NanoVocabulary.

(** ** The tokenizer *)

Lemma lower_char_idem (c : ascii) : lower_char (lower_char c) = lower_char c.
Proof. each_char c. Qed.

Lemma is_word_not_space (c : ascii) : is_word c = true → is_space c = false.
Proof. each_char c. Qed.

Lemma chars_lower (s : string) : chars (lower s) = lower_char <$> chars s.
Proof. unfold lower. by rewrite chars_of_chars. Qed.

Lemma lower_lowered (s : string) : lowered (lower s).
Proof.
  unfold lowered. rewrite chars_lower. apply Forall_fmap, Forall_forall.
  intros c _. apply lower_char_idem.
Qed.

Lemma lower_fixed (s : string) : lowered s → lower s = s.
Proof.
  intros Hs. apply chars_inj. rewrite chars_lower.
  unfold lowered in Hs. induction Hs as [|c l Hc _ IH]; [done|].
  rewrite fmap_cons. by f_equal.
Qed.

Lemma flush_chars (w : string) : chars w ≠ [] → flush (chars w) = [w].
Proof.
  intros Hw. unfold flush. destruct (chars w) eqn:Heq; [done|].
  by rewrite <- Heq, of_chars_chars.
Qed.

Lemma scan_word_run (run : list ascii) : ∀ cur rest,
  Forall (λ c, is_word c = true) run → scan cur (run ++ rest) = scan (cur ++ run) rest.
Proof.
  induction run as [|c run IH]; intros cur rest Hrun.
  - by rewrite app_nil_r.
  - apply Forall_cons in Hrun as [Hc Hrun]. simpl. rewrite Hc.
    rewrite IH by done. by rewrite <- app_assoc.
Qed.

Lemma scan_space (cur : list ascii) (c : ascii) (rest : list ascii) :
  is_word c = false → is_space c = true →
  scan cur (c :: rest) = flush cur ++ scan [] rest.
Proof. intros Hw Hs. simpl. by rewrite Hw, Hs. Qed.

Lemma scan_punct (cur : list ascii) (c : ascii) (rest : list ascii) :
  is_word c = false → is_space c = false →
  scan cur (c :: rest) = flush cur ++ String c "" :: scan [] rest.
Proof. intros Hw Hs. simpl. by rewrite Hw, Hs. Qed.

(** Every match of [findall] has the shape of a token. *)
Lemma scan_token_shape (s : list ascii) : ∀ cur,
  Forall (λ c, is_word c = true) cur → Forall token_shape (scan cur s).
Proof.
  assert (Hflush : ∀ cur, Forall (λ c, is_word c = true) cur →
                          Forall token_shape (flush cur)).
  { intros [|c cur] Hcur; [constructor|]. constructor; [|constructor].
    left. unfold word_token. by rewrite chars_of_chars. }
  induction s as [|c s IH]; intros cur Hcur; simpl; [by apply Hflush|].
  destruct (is_word c) eqn:Hw.
  - apply IH. apply Forall_app. split; [done|]. by constructor.
  - destruct (is_space c) eqn:Hs.
    + apply Forall_app. split; [by apply Hflush|]. by apply IH.
    + apply Forall_app. split; [by apply Hflush|]. constructor; [|by apply IH].
      right. by exists c.
Qed.

(** The characters of the matches are characters of the input. *)
Lemma scan_chars (P : ascii → Prop) (s : list ascii) : ∀ cur,
  Forall P cur → Forall P s → Forall (λ w, Forall P (chars w)) (scan cur s).
Proof.
  assert (Hflush : ∀ cur, Forall P cur → Forall (λ w, Forall P (chars w)) (flush cur)).
  { intros [|c cur] Hcur; [constructor|]. constructor; [|constructor].
    by rewrite chars_of_chars. }
  induction s as [|c s IH]; intros cur Hcur Hs; simpl; [by apply Hflush|].
  apply Forall_cons in Hs as [Hc Hs].
  destruct (is_word c).
  - apply IH; [|done]. apply Forall_app. split; [done|]. by constructor.
  - destruct (is_space c).
    + apply Forall_app. split; [by apply Hflush|]. by apply IH.
    + apply Forall_app. split; [by apply Hflush|]. constructor; [|by apply IH].
      by constructor.
Qed.

Lemma findall_lower_tokens (s : string) :
  Forall (λ w, token_shape w ∧ lowered w) (findall_words (lower s)).
Proof.
  apply Forall_and. split.
  - by apply scan_token_shape.
  - apply scan_chars; [done|]. apply lower_lowered.
Qed.

(** *** Membership in the punctuation string *)

Lemma prefix_head (c : ascii) (w hay : string) :
  String.prefix (String c w) hay = true → ∃ hay', hay = String c hay'.
Proof.
  destruct hay as [|h hay']; simpl; [done|].
  destruct (ascii_dec c h) as [->|]; [eauto|done].
Qed.

Lemma str_contains_head (hay : string) (c : ascii) (w : string) :
  str_contains hay (String c w) = true → c ∈ chars hay.
Proof.
  induction hay as [|h hay IH].
  - simpl. done.
  - cbn [str_contains]. intros [Hp|Hrec]%orb_true_iff.
    + apply prefix_head in Hp as [hay' [= -> ->]]. by left.
    + right. by apply IH.
Qed.

Lemma punctuation_not_word (c : ascii) :
  c ∈ chars ".,!?;:" → is_word c = false ∧ is_space c = false.
Proof.
  intros Hc. repeat (apply elem_of_cons in Hc as [->|Hc]; [by vm_compute|]).
  by apply elem_of_nil in Hc.
Qed.

Lemma word_token_not_punctuation (w : string) :
  word_token w → str_contains ".,!?;:" w = false.
Proof.
  intros [Hne Hw]. destruct w as [|c w]; [done|].
  destruct (str_contains ".,!?;:" (String c w)) eqn:Hin; [|done].
  apply str_contains_head, punctuation_not_word in Hin as [Hin _].
  apply Forall_inv in Hw. congruence.
Qed.

(** *** [decode] followed by the tokenizer *)

Lemma decode_fold (ws : list string) : ∀ (k : nat) (acc : string),
  foldl NanoGPT.decode_step acc (imap (λ i x, (Z.of_nat (k + i), x)) ws)
  = acc +:+ join (imap (λ i, piece (k + i)) ws).
Proof.
  induction ws as [|w ws IH]; intros k acc.
  - simpl. by rewrite string_app_nil_r.
  - rewrite !imap_cons. cbn [foldl join foldr].
    rewrite (imap_ext _ (λ i x, (Z.of_nat (S k + i), x))).
    2:{ intros i x _. simpl. do 2 f_equal. lia. }
    rewrite (imap_ext (_ ∘ S) (λ i, piece (S k + i))).
    2:{ intros i x _. simpl. f_equal. lia. }
    rewrite IH. fold (join (imap (λ i, piece (S k + i)) ws)).
    rewrite <- string_app_assoc. f_equal.
    unfold NanoGPT.decode_step, piece.
    destruct (str_contains ".,!?;:" w); [done|].
    by destruct (Z.of_nat (k + 0) =? 0).
Qed.

Lemma space_class : is_word " " = false ∧ is_space " " = true.
Proof. by vm_compute. Qed.

Lemma join_cons (w : string) (ws : list string) : join (w :: ws) = w +:+ join ws.
Proof. reflexivity. Qed.

(** Scanning what [decode] built from position [k] on gives the words back;
    [cur] is a word still open when the scan reaches that position. *)
Lemma scan_pieces (ws : list string) : ∀ (k : nat) (cur : list ascii),
  Forall token_shape ws →
  Forall (λ c, is_word c = true) cur →
  (k = 0%nat → cur = []) →
  scan cur (chars (join (imap (λ i, piece (k + i)) ws))) = flush cur ++ ws.
Proof.
  destruct space_class as [Hsw Hss].
  induction ws as [|w ws IH]; intros k cur Hws Hcur Hk.
  - simpl. by rewrite app_nil_r.
  - apply Forall_cons in Hws as [Hw Hws].
    rewrite imap_cons, join_cons, chars_app.
    rewrite (imap_ext (_ ∘ S) (λ i, piece (S k + i))).
    2:{ intros i x _. simpl. f_equal. lia. }
    set (rest := chars (join (imap (λ i, piece (S k + i)) ws))).
    assert (Hrest : ∀ cur', Forall (λ c, is_word c = true) cur' →
                            scan cur' rest = flush cur' ++ ws).
    { intros cur' Hcur'. by apply IH. }
    assert (Hword : word_token w → scan [] (chars w ++ rest) = w :: ws).
    { intros [Hne Hrun]. rewrite scan_word_run by done. simpl app.
      rewrite Hrest by done. by rewrite flush_chars. }
    unfold piece. rewrite Nat.add_0_r.
    destruct Hw as [Hw|(c & -> & Hcw & Hcs)].
    + rewrite (word_token_not_punctuation w Hw).
      destruct (Z.eqb_spec (Z.of_nat k) 0) as [Hk0|Hk0].
      * rewrite Hk by lia. by apply Hword.
      * rewrite chars_app. change (chars " ") with [" "%char]. simpl app.
        rewrite scan_space by done. by rewrite Hword.
    + assert (Hpunct : ∀ cur', scan cur' (chars (String c "") ++ rest)
                               = flush cur' ++ String c "" :: ws).
      { intros cur'. change (chars (String c "")) with [c]. simpl app.
        rewrite scan_punct by done. by rewrite Hrest. }
      destruct (str_contains ".,!?;:" (String c "")); [by apply Hpunct|].
      destruct (Z.of_nat k =? 0); [by apply Hpunct|].
      rewrite chars_app. change (chars " ") with [" "%char]. simpl app.
      rewrite scan_space by done. by rewrite Hpunct.
Qed.

Lemma piece_lowered (n : nat) (w : string) : lowered w → lowered (piece n w).
Proof.
  intros Hw. unfold piece.
  destruct (str_contains ".,!?;:" w); [done|].
  destruct (Z.of_nat n =? 0); [done|].
  unfold lowered. rewrite chars_app. apply Forall_app. split; [|done].
  by repeat constructor.
Qed.

Lemma join_lowered (ws : list string) : Forall lowered ws → lowered (join ws).
Proof.
  induction 1 as [|w ws Hw _ IH]; [constructor|].
  rewrite join_cons. unfold lowered. rewrite chars_app. by apply Forall_app.
Qed.

Lemma enumerate_shift {A} (l : list A) :
  enumerate l = imap (λ i x, (Z.of_nat (0 + i), x)) l.
Proof. reflexivity. Qed.

Lemma decoded_pieces (ws : list string) : decoded ws = join (imap (λ i, piece (0 + i)) ws).
Proof. unfold decoded. rewrite enumerate_shift, decode_fold. done. Qed.

(** Re-tokenizing a decoded list of lower-case tokens gives the list. *)
Lemma retokenize (ws : list string) :
  Forall (λ w, token_shape w ∧ lowered w) ws →
  findall_words (lower (decoded ws)) = ws.
Proof.
  intros [Hshape Hlow]%Forall_and.
  rewrite decoded_pieces, lower_fixed.
  - unfold findall_words. by rewrite scan_pieces.
  - apply join_lowered. apply Forall_forall.
    intros p (i & w & -> & Hw)%elem_of_lookup_imap.
    apply piece_lowered. rewrite Forall_forall in Hlow. apply Hlow.
    by eapply list_elem_of_lookup_2.
Qed.

Lemma filter_all {A} (P : A → Prop) `{∀ x, Decision (P x)} (l : list A) :
  Forall P l → filter P l = l.
Proof.
  induction 1 as [|x l Hx _ IH]; [done|].
  rewrite filter_cons, decide_True by done. by f_equal.
Qed.

Section NanoRoundTrip.
Variable text : string.

Lemma vocabulary_tokens (w : string) :
  w ∈ NanoGPT.unique_words text → token_shape w ∧ lowered w.
Proof.
  intros Hw%elem_of_unique_words.
  pose proof (findall_lower_tokens text) as Hall.
  rewrite Forall_forall in Hall. by apply Hall.
Qed.

Lemma known_words_tokens (s : string) :
  Forall (λ w, token_shape w ∧ lowered w) (known_words text s).
Proof.
  eapply Forall_impl; [apply known_words_known|]. apply vocabulary_tokens.
Qed.

Lemma known_words_decoded (ws : list string) :
  Forall (λ w, w ∈ NanoGPT.unique_words text) ws →
  known_words text (decoded ws) = ws.
Proof.
  intros Hws. unfold known_words. rewrite retokenize.
  - apply filter_all. eapply Forall_impl; [exact Hws|].
    intros w Hw. by apply nano_stoi_is_Some.
  - eapply Forall_impl; [exact Hws|]. apply vocabulary_tokens.
Qed.

(** [encode (decode (encode s)) = encode s], for every string. *)
Lemma encode_decode_encode (s : string) :
  ∃ ids d, NanoGPT.encode text s = Ok ids
           ∧ NanoGPT.decode text ids = Ok d
           ∧ NanoGPT.encode text d = Ok ids.
Proof.
  exists (word_id text <$> known_words text s), (decoded (known_words text s)).
  split; [apply encode_Ok|]. split.
  - apply decode_ids, known_words_known.
  - rewrite encode_Ok. by rewrite known_words_decoded by apply known_words_known.
Qed.
End NanoRoundTrip.

(** ** Slices *)

Lemma slice_window {A} (l : list A) (i : Z) (k : nat) :
  0 ≤ i → i + Z.of_nat k ≤ Z.of_nat (length l) →
  slice l i (i + Z.of_nat k) = take k (drop (Z.to_nat i) l)
  ∧ length (slice l i (i + Z.of_nat k)) = k.
Proof.
  intros Hi Hk. unfold slice, slice_bound.
  destruct (Z.ltb_spec i 0) as [?|_]; [lia|].
  destruct (Z.ltb_spec (i + Z.of_nat k) 0) as [?|_]; [lia|].
  replace (Nat.min (Z.to_nat (i + Z.of_nat k)) (length l) - Nat.min (Z.to_nat i) (length l))%nat
    with k by lia.
  replace (Nat.min (Z.to_nat i) (length l)) with (Z.to_nat i) by lia.
  split; [done|]. rewrite length_take, length_drop. lia.
Qed.

Lemma slice_window_lookup {A} (l : list A) (i : Z) (k t : nat) :
  0 ≤ i → i + Z.of_nat k ≤ Z.of_nat (length l) → (t < k)%nat →
  slice l i (i + Z.of_nat k) !! t = l !! (Z.to_nat i + t)%nat
  ∧ is_Some (l !! (Z.to_nat i + t)%nat).
Proof.
  intros Hi Hk Ht. destruct (slice_window l i k Hi Hk) as [-> _].
  rewrite lookup_take_lt by done. rewrite lookup_drop. split; [done|].
  apply lookup_lt_is_Some. lia.
Qed.

Lemma fmap_non_nil {A B} (f : A → B) (l : list A) : l ≠ [] → f <$> l ≠ [].
Proof. by destruct l. Qed.

Lemma slice_from_last {A} (l : list A) (k : nat) :
  (1 ≤ k)%nat → slice_from l (- Z.of_nat k) = drop (length l - k) l.
Proof.
  intros Hk. unfold slice_from, slice_bound.
  destruct (Z.ltb_spec (- Z.of_nat k) 0) as [_|?]; [|lia].
  f_equal. lia.
Qed.

(** ** The batch sampler of the nanoGPT tutorial *)

Section NanoBatch.
Context {G : Type} `{RandomGen G}.
Variables train_data val_data : list Z.
Variables batch_size block_size : nat.
Variable split : string.

Local Abbreviation data :=
  (if decide (split = "train"%string) then train_data else val_data).

Hypothesis batch_size_pos : (1 ≤ batch_size)%nat.
Hypothesis data_long : (block_size < length data)%nat.

Lemma nano_get_batch_spec (w : world G) :
  ∃ ix w',
    NanoGPT.get_batch train_data val_data batch_size block_size split w
    = Ok (T2 ((λ i, slice data i (i + Z.of_nat block_size)) <$> ix),
          T2 ((λ i, slice data (i + 1) (i + Z.of_nat block_size + 1)) <$> ix), w')
    ∧ length ix = batch_size
    ∧ Forall (λ i, 0 ≤ i < Z.of_nat (length data) - Z.of_nat block_size) ix
    ∧ py_random w' = py_random w ∧ np_random w' = np_random w.
Proof.
  set (high := Z.of_nat (length data) - Z.of_nat block_size).
  assert (0 < high) as Hhigh by (unfold high; lia).
  destruct (torch_draws_spec high batch_size w Hhigh) as (Hlen & Hix & Hpy & Hnp).
  destruct (torch_draws high batch_size w) as [ix w'] eqn:Hdraw. simpl in *.
  exists ix, w'. unfold NanoGPT.get_batch. fold data. fold high.
  unfold torch_randint. rewrite (proj2 (Z.ltb_lt 0 high) Hhigh), Hdraw.
  cbn [mbind result_bind].
  assert (ix ≠ []) as Hne by (intros ->; simpl in Hlen; lia).
  assert (∀ rows : list (list Z), rows ≠ [] →
            Forall (λ r, length r = block_size) rows →
            torch_stack rows = Ok (T2 rows)) as Hstack.
  { intros rows Hrows Hall. unfold torch_stack.
    destruct rows; [done|]. by rewrite (same_length_intro _ block_size). }
  assert (Hx : Forall (λ r : list Z, length r = block_size)
                 ((λ i, slice data i (i + Z.of_nat block_size)) <$> ix)).
  { apply Forall_fmap. eapply Forall_impl; [exact Hix|]. intros i Hi.
    cbv beta in Hi. unfold high in Hi. unfold compose.
    apply slice_window; lia. }
  assert (Hy : Forall (λ r : list Z, length r = block_size)
                 ((λ i, slice data (i + 1) (i + Z.of_nat block_size + 1)) <$> ix)).
  { apply Forall_fmap. eapply Forall_impl; [exact Hix|]. intros i Hi.
    cbv beta in Hi. unfold high in Hi. unfold compose.
    replace (i + Z.of_nat block_size + 1) with (i + 1 + Z.of_nat block_size) by lia.
    apply slice_window; lia. }
  rewrite (Hstack _ (fmap_non_nil _ _ Hne) Hx). cbn [mbind result_bind].
  rewrite (Hstack _ (fmap_non_nil _ _ Hne) Hy). done.
Qed.
End NanoBatch.

(** ** The generation loop *)

Section GenerationFacts.
Context {G : Type}.
Variable block_size : nat.
Variables Logits Probs : Type.
Variable model : list Z → result (list Logits).
Variable div : Logits → Z → Logits.
Variable softmax : Logits → Probs.
Variable multinomial : Probs → world G → Z * world G.

Hypothesis block_size_pos : (1 ≤ block_size)%nat.
(** The transformer accepts a non-empty context of at most [block_size]
    tokens ([n_positions = block_size]) and returns one row of logits
    per position. *)
Hypothesis model_returns : ∀ ctx : list Z,
  (1 ≤ length ctx ≤ block_size)%nat →
  ∃ ls, model ctx = Ok ls ∧ length ls = length ctx.

Local Abbreviation step :=
  (NanoGPT.generation_step block_size Logits Probs model div softmax multinomial).
Local Abbreviation loop :=
  (NanoGPT.generation_loop block_size Logits Probs model div softmax multinomial).
Local Abbreviation iteration_ok :=
  (iteration_ok block_size model div softmax multinomial).

Lemma generation_step_spec (generated : list Z) (w : world G) :
  generated ≠ [] →
  ∃ it w1,
    step generated w = Ok (generated ++ [NanoGPT.token it], w1, it)
    ∧ NanoGPT.seq_before it = generated ∧ iteration_ok it.
Proof.
  intros Hne.
  set (ctx := drop (length generated - block_size) generated).
  assert (Hcrop : (if (block_size <? length generated)%nat
                   then slice_from generated (- Z.of_nat block_size)
                   else generated) = ctx).
  { unfold ctx. destruct (Nat.ltb_spec block_size (length generated)) as [Hlt|Hge].
    - by apply slice_from_last.
    - by replace (length generated - block_size)%nat with 0%nat by lia. }
  assert (Hlen : (1 ≤ length ctx ≤ block_size)%nat).
  { unfold ctx. rewrite length_drop. destruct generated; [done|]. simpl length. lia. }
  destruct (model_returns ctx Hlen) as (ls & Hmodel & Hls).
  destruct (last ls) as [l|] eqn:Hlast.
  2:{ apply last_None in Hlast. subst ls. simpl in Hls. lia. }
  destruct (multinomial (softmax (div l 1)) w) as [tok w1] eqn:Hdraw.
  exists {| NanoGPT.seq_before := generated; NanoGPT.fed := ctx;
            NanoGPT.scaled := div l 1; NanoGPT.token := tok |}, w1.
  split; [|split; [done|]].
  - unfold NanoGPT.generation_step. rewrite Hcrop, Hmodel. cbn [mbind result_bind].
    unfold NanoGPT.last_position. rewrite Hlast. cbn [mbind result_bind].
    rewrite Hdraw. done.
  - unfold iteration_ok. simpl. split; [done|]. split; [lia|].
    exists ls, l, w. by rewrite Hdraw.
Qed.

Lemma generation_loop_spec (n : nat) : ∀ (generated : list Z) (w : world G)
    (log : list (NanoGPT.iteration Logits)),
  generated ≠ [] →
  ∃ its w',
    loop n generated w log = Ok (generated ++ (NanoGPT.token <$> its), w', log ++ its)
    ∧ length its = n
    ∧ ∀ k it, its !! k = Some it →
        NanoGPT.seq_before it = generated ++ (NanoGPT.token <$> take k its)
        ∧ iteration_ok it.
Proof.
  induction n as [|n IH]; intros generated w log Hne.
  - exists [], w. simpl. rewrite !app_nil_r. split; [done|]. split; [done|].
    intros k it Hk. by rewrite lookup_nil in Hk.
  - destruct (generation_step_spec generated w Hne) as (it & w1 & Hstep & Hseq & Hit).
    destruct (IH (generated ++ [NanoGPT.token it]) w1 (log ++ [it]))
      as (its & w' & Hloop & Hlen & Hits).
    { by destruct generated. }
    exists (it :: its), w'. cbn [NanoGPT.generation_loop].
    rewrite Hstep. cbn [mbind result_bind]. rewrite Hloop.
    rewrite <- !app_assoc. simpl. split; [done|]. split; [by f_equal|].
    intros [|k] it' Hk; simpl in Hk.
    + injection Hk as <-. simpl. by rewrite app_nil_r.
    + destruct (Hits k it' Hk) as [Hseq' Hok]. split; [|done].
      rewrite Hseq', <- app_assoc. done.
Qed.
End GenerationFacts.

(** * The claims *)

(** C1 (as amended).  In the nanoGPT tutorial the input and the target of a
    batch have the same shape, [batch_size × block_size].  In the adder
    tutorial the input has shape [batch_size × max_question_length] and the
    target is a vector of [batch_size] class labels. *)
Theorem batch_shapes {G : Type} `{RandomGen G}
    (train_data val_data : list Z) (batch_size block_size : nat) (split : string)
    (ndigit : nat) (w : world G) :
  (1 ≤ batch_size)%nat →
  (block_size < length (if decide (split = "train"%string) then train_data else val_data))%nat →
  (1 ≤ ndigit ≤ 18)%nat →
  (∃ x y w',
     NanoGPT.get_batch train_data val_data batch_size block_size split w = Ok (x, y, w')
     ∧ shape x = [batch_size; block_size] ∧ shape y = [batch_size; block_size])
  ∧ (∃ x y w',
       Adder.get_batch batch_size ndigit w = Ok (x, y, w')
       ∧ shape x = [batch_size; Adder.max_question_length ndigit]
       ∧ shape y = [batch_size]).
Proof.
  intros Hbs Hdata Hnd. split.
  - destruct (nano_get_batch_spec train_data val_data batch_size block_size split Hbs Hdata w)
      as (ix & w' & Hget & Hlen & Hix & _).
    eexists _, _, w'. split; [exact Hget|].
    assert (∀ f : Z → list Z, Forall (λ i, length (f i) = block_size) ix →
              shape (T2 (f <$> ix)) = [batch_size; block_size]) as Hshape.
    { intros f Hf. apply shape_rows; [lia| by rewrite length_fmap | by apply Forall_fmap]. }
    split; apply Hshape; (eapply Forall_impl; [exact Hix|]); intros i Hi; cbv beta in Hi.
    + apply slice_window; lia.
    + replace (i + Z.of_nat block_size + 1) with (i + 1 + Z.of_nat block_size) by lia.
      apply slice_window; lia.
  - destruct (adder_get_batch_spec batch_size ndigit Hbs Hnd w)
      as (rows & ys & w' & Hget & Hlr & Hly & Hrows & _).
    exists (T2 rows), (T1 ys), w'. split; [done|]. split.
    + apply shape_rows; [lia|done|]. eapply Forall_impl; [exact Hrows|]. by intros q [? _].
    + simpl. by rewrite Hly.
Qed.

(** C1, as stated, fails in the adder tutorial: a batch of the notebook's
    configuration has a [32 × 6] input and a target of shape [32]. *)
Lemma adder_batch_shapes_differ :
  ∃ x y w',
    Adder.get_batch 32 2 (seed_all 42 42 42 (World 0 0 0)) = Ok (x, y, w')
    ∧ shape x = [32; 6]%nat ∧ shape y = [32]%nat ∧ shape x ≠ shape y.
Proof.
  assert ((λ r : tensor * tensor * world Z, (shape r.1.1, shape r.1.2))
            <$> Adder.get_batch 32 2 (seed_all 42 42 42 (World 0 0 0))
          = Ok ([32; 6]%nat, [32]%nat)) as Hshapes by (vm_compute; reflexivity).
  destruct (Adder.get_batch 32 2 (seed_all 42 42 42 (World 0 0 0)))
    as [[[x y] w']|e]; [|discriminate Hshapes].
  exists x, y, w'. simpl in Hshapes. injection Hshapes as Hx Hy.
  rewrite Hx, Hy. repeat split. discriminate.
Qed.

(** C2 (as amended).  In the adder tutorial a string with a character
    outside the vocabulary makes [encode_input] raise [KeyError] at the
    first such character: the string is a prefix over the vocabulary, then
    the character the error names, then the rest.  In the nanoGPT tutorial
    [encode] never raises: it returns the ids of the words it knows and
    skips the others. *)
Theorem unknown_token_encoding (text s question : string) :
  ¬ known_chars question →
  (∃ before c after,
     question = before +:+ String c after
     ∧ known_chars before ∧ (c ∉ chars Adder.input_chars)
     ∧ Adder.encode_input question = Raise (KeyError (KStr (String c ""))))
  ∧ NanoGPT.encode text s
    = Ok (word_id text <$>
            filter (λ word, word ∈ NanoGPT.unique_words text) (findall_words (lower s))).
Proof.
  intros Hq. split.
  { destruct (first_unknown_char question Hq) as (before & c & after & -> & Hbefore & Hc).
    exists before, c, after. split; [done|]. split; [done|]. split; [done|].
    by apply encode_input_raises_at. }
  rewrite encode_Ok. do 2 f_equal. unfold known_words.
  apply list_filter_iff. intros w. apply nano_stoi_is_Some.
Qed.

(** C2, as stated, fails in the nanoGPT tutorial: "zebra" is not in the
    vocabulary of the corpus and [encode] returns without an error. *)
Lemma nanogpt_encode_skips_unknown :
  findall_words (lower "the zebra") = ["the"; "zebra"]%string
  ∧ NanoGPT.stoi NanoGPT.text !! "zebra"%string = None
  ∧ NanoGPT.encode NanoGPT.text "the zebra" = Ok [102].
Proof. vm_compute. repeat split. Qed.

(** C3.  A string made of vocabulary tokens is encoded, decoded and encoded
    again to the same ids, and the decoded string has the same tokens
    (nanoGPT); a string over the input characters is decoded back to itself
    (adder). *)
Theorem encode_decode_round_trip (text s question : string) :
  Forall (λ w, w ∈ NanoGPT.unique_words text) (findall_words (lower s)) →
  known_chars question →
  (∃ ids d,
     NanoGPT.encode text s = Ok ids
     ∧ NanoGPT.decode text ids = Ok d
     ∧ NanoGPT.encode text d = Ok ids
     ∧ findall_words (lower d) = findall_words (lower s))
  ∧ (∃ ids, Adder.encode_input question = Ok ids
            ∧ Adder.decode_input ids = Ok question).
Proof.
  intros Hs Hq. split.
  - assert (known_words text s = findall_words (lower s)) as Hknown.
    { apply filter_all. eapply Forall_impl; [exact Hs|].
      intros w Hw. by apply nano_stoi_is_Some. }
    exists (word_id text <$> known_words text s), (decoded (known_words text s)).
    split; [apply encode_Ok|]. split; [apply decode_ids, known_words_known|]. split.
    + rewrite encode_Ok. by rewrite known_words_decoded by apply known_words_known.
    + rewrite retokenize; [done|]. apply known_words_tokens.
  - destruct (encode_input_known question Hq) as (ids & Henc & _ & _ & Hdec). eauto.
Qed.

(** C4.  With at least one digit per operand, a generated question is no
    longer than the maximum question length, so that the padded question
    is encoded to exactly that many ids; this holds for every row that the
    loop of [get_batch] collects. *)
Theorem padded_question_length {G : Type} `{RandomGen G} (ndigit n : nat) (w : world G) :
  (1 ≤ ndigit)%nat →
  (∃ q_str ans_int w' encoded_q,
     Adder.generate_addition_data ndigit w = Ok (q_str, ans_int, w')
     ∧ (String.length q_str ≤ Adder.max_question_length ndigit)%nat
     ∧ Adder.encode_input (ljust q_str (Adder.max_question_length ndigit)) = Ok encoded_q
     ∧ length encoded_q = Adder.max_question_length ndigit
     ∧ Adder.max_question_length ndigit = (ndigit + 1 + ndigit + 1)%nat)
  ∧ (∃ questions answers w',
       Adder.fill_batch ndigit n [] [] w = Ok (questions, answers, w')
       ∧ length questions = n
       ∧ Forall (λ q, length q = Adder.max_question_length ndigit) questions).
Proof.
  intros Hnd. split.
  - destruct (padded_question_spec ndigit w)
      as (a & b & w' & enc & Hgen & _ & _ & Hq & Henc & Hlen & _).
    eexists _, _, w', enc. split; [exact Hgen|]. specialize (Hq Hnd).
    split; [done|]. split; [done|]. split; [lia|done].
  - destruct (fill_batch_spec ndigit n [] [] w) as (qs & ans & w' & Hfill & Hlen & _ & Hqs & _).
    exists qs, ans, w'. split; [done|]. split; [done|].
    eapply Forall_impl; [exact Hqs|]. intros q [Hq _]. by apply Hq.
Qed.

(** C5.  [generate_addition_data] returns the question ["a+b="] for the two
    integers it drew and their exact sum as the answer; the operands can be
    read back from their decimal digits. *)
Theorem answer_is_sum {G : Type} `{RandomGen G} (num_digits : nat) (w : world G) :
  ∃ a b w',
    Adder.generate_addition_data num_digits w
    = Ok (str a +:+ "+" +:+ str b +:+ "=", a + b, w')
    ∧ 0 ≤ a ≤ 10 ^ Z.of_nat num_digits - 1
    ∧ 0 ≤ b ≤ 10 ^ Z.of_nat num_digits - 1
    ∧ int_of_digits (str a) = a ∧ int_of_digits (str b) = b.
Proof.
  destruct (generate_addition_data_spec num_digits w) as (a & b & w' & Hgen & Ha & Hb & _).
  exists a, b, w'. repeat (split; [done|]). split; apply int_of_digits_str; lia.
Qed.

(** C6.  Started on a non-empty context, with a model that accepts up to
    [block_size] tokens, the generation loop runs exactly 50 iterations
    whatever tokens are sampled: each appends one token, so the result is
    the context followed by 50 tokens.  Every iteration passes the last
    [block_size] tokens of the current sequence (all of it while it is
    shorter) to the model, divides the logits of the last position by the
    temperature 1 and samples the new token from the softmax of that. *)
Theorem generation_appends_fifty {G : Type} (block_size : nat) (Logits Probs : Type)
    (model : list Z → result (list Logits)) (div : Logits → Z → Logits)
    (softmax : Logits → Probs) (multinomial : Probs → world G → Z * world G)
    (context : list Z) (w : world G) :
  (1 ≤ block_size)%nat →
  (∀ ctx : list Z, (1 ≤ length ctx ≤ block_size)%nat →
     ∃ ls, model ctx = Ok ls ∧ length ls = length ctx) →
  context ≠ [] →
  ∃ generated w' log,
    NanoGPT.generate block_size Logits Probs model div softmax multinomial context w
    = Ok (generated, w', log)
    ∧ length log = 50%nat
    ∧ generated = context ++ (NanoGPT.token <$> log)
    ∧ length generated = (length context + 50)%nat
    ∧ ∀ k it, log !! k = Some it →
        NanoGPT.seq_before it = context ++ (NanoGPT.token <$> take k log)
        ∧ NanoGPT.fed it
          = drop (length (NanoGPT.seq_before it) - block_size) (NanoGPT.seq_before it)
        ∧ (length (NanoGPT.fed it) ≤ block_size)%nat
        ∧ ∃ ls l wk,
            model (NanoGPT.fed it) = Ok ls ∧ last ls = Some l
            ∧ NanoGPT.scaled it = div l 1
            ∧ NanoGPT.token it = (multinomial (softmax (NanoGPT.scaled it)) wk).1.
Proof.
  intros Hblock Hmodel Hctx.
  destruct (generation_loop_spec block_size Logits Probs model div softmax multinomial
              Hblock Hmodel 50 context w [] Hctx) as (its & w' & Hloop & Hlen & Hits).
  exists (context ++ (NanoGPT.token <$> its)), w', its.
  split; [exact Hloop|]. split; [done|]. split; [done|].
  split; [by rewrite length_app, length_fmap, Hlen|].
  intros k it Hk. destruct (Hits k it Hk) as (Hseq & Hfed & Hle & Hsample). done.
Qed.

(** C7.  The two dictionaries of a vocabulary are inverse to each other, on
    the words of the vocabulary and on the ids below the vocabulary size,
    in both tutorials. *)
Theorem vocabulary_inverse (text : string) (word : string) (i : Z) (ch : ascii) (j : Z) :
  word ∈ NanoGPT.unique_words text →
  0 ≤ i < Z.of_nat (NanoGPT.vocab_size text) →
  ch ∈ chars Adder.input_chars →
  0 ≤ j < Z.of_nat Adder.input_vocab_size →
  (∃ k, 0 ≤ k < Z.of_nat (NanoGPT.vocab_size text)
        ∧ NanoGPT.stoi text !! word = Some k ∧ NanoGPT.itos text !! k = Some word)
  ∧ (∃ w, w ∈ NanoGPT.unique_words text
          ∧ NanoGPT.itos text !! i = Some w ∧ NanoGPT.stoi text !! w = Some i)
  ∧ (∃ k, 0 ≤ k < Z.of_nat Adder.input_vocab_size
          ∧ Adder.input_stoi !! ch = Some k ∧ Adder.input_itos !! k = Some ch)
  ∧ (∃ c, c ∈ chars Adder.input_chars
          ∧ Adder.input_itos !! j = Some c ∧ Adder.input_stoi !! c = Some j).
Proof.
  intros Hword Hi Hch Hj.
  split; [by apply nano_stoi_itos|]. split; [by apply nano_itos_stoi|].
  split; [by apply adder_stoi_itos | by apply adder_itos_stoi].
Qed.

(** C8.  Every row of the input of a nanoGPT batch is the window
    [data[i:i+block_size]] of the selected split for an index
    [0 <= i < len(data) - block_size], the same row of the target is
    [data[i+1:i+block_size+1]], and at each position the target holds the
    token that follows the input token in the data. *)
Theorem batch_rows_are_windows {G : Type} `{RandomGen G}
    (train_data val_data : list Z) (batch_size block_size : nat) (split : string)
    (w : world G) :
  let data := if decide (split = "train"%string) then train_data else val_data in
  (1 ≤ batch_size)%nat →
  (block_size < length data)%nat →
  ∃ xs ys w',
    NanoGPT.get_batch train_data val_data batch_size block_size split w
    = Ok (T2 xs, T2 ys, w')
    ∧ length xs = batch_size ∧ length ys = batch_size
    ∧ ∀ b, (b < batch_size)%nat →
        ∃ i, 0 ≤ i < Z.of_nat (length data) - Z.of_nat block_size
             ∧ xs !! b = Some (slice data i (i + Z.of_nat block_size))
             ∧ ys !! b = Some (slice data (i + 1) (i + Z.of_nat block_size + 1))
             ∧ ∀ t, (t < block_size)%nat →
                 ∃ tok next,
                   slice data i (i + Z.of_nat block_size) !! t = Some tok
                   ∧ data !! (Z.to_nat i + t)%nat = Some tok
                   ∧ slice data (i + 1) (i + Z.of_nat block_size + 1) !! t = Some next
                   ∧ data !! (Z.to_nat i + t + 1)%nat = Some next.
Proof.
  intros data Hbs Hdata.
  destruct (nano_get_batch_spec train_data val_data batch_size block_size split Hbs Hdata w)
    as (ix & w' & Hget & Hlen & Hix & _).
  fold data in Hget, Hix.
  eexists _, _, w'. split; [exact Hget|].
  split; [by rewrite length_fmap|]. split; [by rewrite length_fmap|].
  intros b Hb.
  destruct (lookup_lt_is_Some_2 ix b) as [i Hi]; [lia|].
  rewrite Forall_forall in Hix.
  pose proof (Hix i (list_elem_of_lookup_2 _ _ _ Hi)) as Hrange. cbv beta in Hrange.
  exists i. split; [done|].
  rewrite !list_lookup_fmap, Hi. split; [done|]. split; [done|].
  intros t Ht.
  destruct (slice_window_lookup data i block_size t) as [Hx [tok Htok]]; [lia..|].
  destruct (slice_window_lookup data (i + 1) block_size t) as [Hy [next Hnext]]; [lia..|].
  replace (i + 1 + Z.of_nat block_size) with (i + Z.of_nat block_size + 1) in Hy by lia.
  replace (Z.to_nat (i + 1) + t)%nat with (Z.to_nat i + t + 1)%nat in Hy, Hnext by lia.
  exists tok, next. rewrite Hx, Hy. done.
Qed.

(** ** Which generator a batch depends on *)

Section Dependence.
Context {G : Type} `{RandomGen G}.

Lemma agree_bind {A B} (view : world G → G) (m1 m2 : result (A * world G))
    (f : A * world G → result (B * world G)) :
  agree view m1 m2 →
  (∀ x w1 w2, view w1 = view w2 → agree view (f (x, w1)) (f (x, w2))) →
  agree view (m1 ≫= f) (m2 ≫= f).
Proof.
  intros Hm Hf. destruct m1 as [[x1 w1]|e1], m2 as [[x2 w2]|e2]; simpl in *; try done.
  destruct Hm as [-> Hw]. by apply Hf.
Qed.

Lemma random_randint_agree (a b : Z) (w1 w2 : world G) :
  py_random w1 = py_random w2 →
  agree py_random (random_randint a b w1) (random_randint a b w2).
Proof.
  intros Hw. unfold random_randint. rewrite Hw.
  destruct (0 <? b - a + 1); [|done].
  destruct (rng_below (b - a + 1) (py_random w2)) as [r g]. done.
Qed.

Lemma generate_addition_data_agree (num_digits : nat) (w1 w2 : world G) :
  py_random w1 = py_random w2 →
  agree py_random (Adder.generate_addition_data num_digits w1)
                  (Adder.generate_addition_data num_digits w2).
Proof.
  intros Hw. unfold Adder.generate_addition_data.
  apply agree_bind; [by apply random_randint_agree|].
  intros a w1' w2' Hw'. cbv beta iota.
  apply agree_bind; [by apply random_randint_agree|].
  intros b w1'' w2'' Hw''. done.
Qed.

Lemma fill_batch_agree (ndigit n : nat) : ∀ questions answers (w1 w2 : world G),
  py_random w1 = py_random w2 →
  agree py_random (Adder.fill_batch ndigit n questions answers w1)
                  (Adder.fill_batch ndigit n questions answers w2).
Proof.
  induction n as [|n IH]; intros questions answers w1 w2 Hw; [done|].
  cbn [Adder.fill_batch].
  apply agree_bind; [by apply generate_addition_data_agree|].
  intros [q_str ans_int] w1' w2' Hw'. cbv beta iota.
  destruct (Adder.encode_input _) as [encoded_q|e]; cbn [mbind result_bind]; [|done].
  by apply IH.
Qed.

(** The adder sampler reads the generator of [random] only. *)
Lemma adder_get_batch_agree (batch_size ndigit : nat) (w1 w2 : world G) :
  py_random w1 = py_random w2 →
  agree py_random (Adder.get_batch batch_size ndigit w1)
                  (Adder.get_batch batch_size ndigit w2).
Proof.
  intros Hw. unfold Adder.get_batch.
  apply agree_bind; [by apply fill_batch_agree|].
  intros [questions answers] w1' w2' Hw'. cbv beta iota.
  destruct (torch_tensor2 questions) as [x|e]; cbn [mbind result_bind]; [|done].
  destruct (torch_tensor1 answers) as [y|e]; done.
Qed.

Lemma torch_draws_agree (high : Z) (n : nat) : ∀ w1 w2 : world G,
  torch_random w1 = torch_random w2 →
  (torch_draws high n w1).1 = (torch_draws high n w2).1
  ∧ torch_random (torch_draws high n w1).2 = torch_random (torch_draws high n w2).2.
Proof.
  induction n as [|n IH]; intros w1 w2 Hw; simpl; [done|].
  unfold torch_draw. rewrite Hw.
  destruct (rng_below high (torch_random w2)) as [r g].
  specialize (IH {| py_random := py_random w1; np_random := np_random w1;
                    torch_random := g |}
                 {| py_random := py_random w2; np_random := np_random w2;
                    torch_random := g |} eq_refl).
  destruct (torch_draws high n _) as [rs1 w1'].
  destruct (torch_draws high n _) as [rs2 w2']. simpl in *.
  destruct IH as [-> ->]. done.
Qed.

(** The nanoGPT sampler reads the generator of [torch] only. *)
Lemma nano_get_batch_agree (train_data val_data : list Z)
    (batch_size block_size : nat) (split : string) (w1 w2 : world G) :
  torch_random w1 = torch_random w2 →
  agree torch_random
    (NanoGPT.get_batch train_data val_data batch_size block_size split w1)
    (NanoGPT.get_batch train_data val_data batch_size block_size split w2).
Proof.
  intros Hw. unfold NanoGPT.get_batch, torch_randint.
  destruct (0 <? _); [|done].
  destruct (torch_draws_agree
              (Z.of_nat (length (if decide (split = "train"%string)
                                 then train_data else val_data))
               - Z.of_nat block_size) batch_size w1 w2 Hw) as [Hix Hgen].
  destruct (torch_draws _ batch_size w1) as [ix1 w1'].
  destruct (torch_draws _ batch_size w2) as [ix2 w2'].
  simpl in Hix, Hgen. subst ix2. cbn [mbind result_bind].
  destruct (torch_stack _); destruct (torch_stack _); cbn [mbind result_bind]; done.
Qed.
End Dependence.

(** C9.  Two runs that set the three seeds to the same values obtain the
    same batch from the sampler, in both tutorials, whatever state the
    generators were in before seeding.  Only the seed of the generator
    that the sampler reads matters: the one of [torch] for the nanoGPT
    sampler, the one of [random] for the adder. *)
Theorem seeded_batches_equal {G : Type} `{RandomGen G} (a b c a' b' c' : Z)
    (w1 w2 : world G) (train_data val_data : list Z) (batch_size block_size : nat)
    (split : string) (ndigit : nat) :
  (NanoGPT.get_batch train_data val_data batch_size block_size split (seed_all a b c w1)
   = NanoGPT.get_batch train_data val_data batch_size block_size split (seed_all a b c w2)
   ∧ Adder.get_batch batch_size ndigit (seed_all a b c w1)
     = Adder.get_batch batch_size ndigit (seed_all a b c w2))
  ∧ agree torch_random
      (NanoGPT.get_batch train_data val_data batch_size block_size split (seed_all a b c w1))
      (NanoGPT.get_batch train_data val_data batch_size block_size split (seed_all a' b' c w2))
  ∧ agree py_random
      (Adder.get_batch batch_size ndigit (seed_all a b c w1))
      (Adder.get_batch batch_size ndigit (seed_all a b' c' w2)).
Proof.
  split; [|split].
  - assert (seed_all a b c w1 = seed_all a b c w2) as -> by reflexivity. done.
  - by apply nano_get_batch_agree.
  - by apply adder_get_batch_agree.
Qed.

(** C10.  The answer of a generated problem lies between 0 and
    [max_answer], hence below [num_answer_classes]; so does every answer
    that the loop of [get_batch] collects for the target tensor. *)
Theorem answer_in_class_range {G : Type} `{RandomGen G} (ndigit n : nat) (w : world G) :
  (∃ question answer w',
     Adder.generate_addition_data ndigit w = Ok (question, answer, w')
     ∧ 0 ≤ answer ≤ Adder.max_answer ndigit
     ∧ Adder.max_answer ndigit = (10 ^ Z.of_nat ndigit - 1) + (10 ^ Z.of_nat ndigit - 1)
     ∧ answer < Adder.num_answer_classes ndigit)
  ∧ (∃ questions answers w',
       Adder.fill_batch ndigit n [] [] w = Ok (questions, answers, w')
       ∧ length answers = n
       ∧ Forall (λ y, 0 ≤ y < Adder.num_answer_classes ndigit) answers).
Proof.
  split.
  - destruct (generate_addition_data_spec ndigit w) as (a & b & w' & Hgen & Ha & Hb & _).
    eexists _, _, w'. split; [exact Hgen|].
    unfold Adder.num_answer_classes, Adder.max_answer. lia.
  - destruct (fill_batch_spec ndigit n [] [] w) as (qs & ans & w' & Hfill & _ & Hlen & _ & Hans & _).
    exists qs, ans, w'. split; [done|]. split; [done|].
    eapply Forall_impl; [exact Hans|]. intros y Hy.
    unfold Adder.num_answer_classes. cbv beta in Hy. lia.
Qed.

(** * The theorems at the notebooks' own values *)

Lemma notebook_train_length : length notebook_train = 119%nat.
Proof. vm_compute. reflexivity. Qed.

Lemma notebook_context_length : length notebook_context = 15%nat.
Proof. vm_compute. reflexivity. Qed.

Lemma notebook_vocab_size : NanoGPT.vocab_size NanoGPT.text = 123%nat.
Proof. vm_compute. reflexivity. Qed.

Lemma example_model_returns (ctx : list Z) :
  (1 ≤ length ctx ≤ 10)%nat →
  ∃ ls, example_model ctx = Ok ls ∧ length ls = length ctx.
Proof.
  intros Hctx. unfold example_model. rewrite decide_True by done.
  eexists. split; [reflexivity|]. by rewrite length_fmap.
Qed.

(** [batch_shapes] at the configuration of the notebooks. *)
Lemma batch_shapes_witness :
  (∃ x y w',
     NanoGPT.get_batch notebook_train notebook_val 32 10 "train" (notebook_world 1)
     = Ok (x, y, w')
     ∧ shape x = [32; 10]%nat ∧ shape y = [32; 10]%nat)
  ∧ (∃ x y w',
       Adder.get_batch 32 2 (notebook_world 1) = Ok (x, y, w')
       ∧ shape x = [32; Adder.max_question_length 2]%nat ∧ shape y = [32]%nat).
Proof.
  apply (batch_shapes notebook_train notebook_val 32 10 "train" 2 (notebook_world 1)).
  - lia.
  - rewrite decide_True by reflexivity. rewrite notebook_train_length. lia.
  - lia.
Defined.

(** [unknown_token_encoding] on a question with a character outside the
    input vocabulary. *)
Lemma unknown_token_encoding_witness :
  ¬ known_chars "2+3=?"
  ∧ (∃ before c after,
       "2+3=?"%string = before +:+ String c after
       ∧ known_chars before ∧ (c ∉ chars Adder.input_chars)
       ∧ Adder.encode_input "2+3=?" = Raise (KeyError (KStr (String c ""))))
  ∧ NanoGPT.encode NanoGPT.text "the zebra"
    = Ok (word_id NanoGPT.text <$>
            filter (λ word, word ∈ NanoGPT.unique_words NanoGPT.text)
                   (findall_words (lower "the zebra"))).
Proof.
  assert (¬ known_chars "2+3=?") as Hq.
  { apply (bool_decide_unpack _). vm_compute. exact I. }
  split; [exact Hq|].
  exact (unknown_token_encoding NanoGPT.text "the zebra" "2+3=?" Hq).
Defined.

(** [encode_decode_round_trip] on the test strings of the notebooks. *)
Lemma encode_decode_round_trip_witness :
  Forall (λ w, w ∈ NanoGPT.unique_words NanoGPT.text) (findall_words (lower "an answer"))
  ∧ known_chars "2+3="
  ∧ (∃ ids d,
       NanoGPT.encode NanoGPT.text "an answer" = Ok ids
       ∧ NanoGPT.decode NanoGPT.text ids = Ok d
       ∧ NanoGPT.encode NanoGPT.text d = Ok ids
       ∧ findall_words (lower d) = findall_words (lower "an answer"))
  ∧ (∃ ids, Adder.encode_input "2+3=" = Ok ids ∧ Adder.decode_input ids = Ok "2+3="%string).
Proof.
  assert (Forall (λ w, w ∈ NanoGPT.unique_words NanoGPT.text)
            (findall_words (lower "an answer"))) as Hs.
  { apply (bool_decide_unpack _). vm_compute. exact I. }
  assert (known_chars "2+3=") as Hq.
  { apply (bool_decide_unpack _). vm_compute. exact I. }
  split; [exact Hs|]. split; [exact Hq|].
  exact (encode_decode_round_trip NanoGPT.text "an answer" "2+3=" Hs Hq).
Defined.

(** [padded_question_length] at [ndigit = 2], [batch_size = 32]. *)
Lemma padded_question_length_witness :
  (1 ≤ 2)%nat
  ∧ (∃ q_str ans_int w' encoded_q,
       Adder.generate_addition_data 2 (notebook_world 42) = Ok (q_str, ans_int, w')
       ∧ (String.length q_str ≤ Adder.max_question_length 2)%nat
       ∧ Adder.encode_input (ljust q_str (Adder.max_question_length 2)) = Ok encoded_q
       ∧ length encoded_q = Adder.max_question_length 2
       ∧ Adder.max_question_length 2 = (2 + 1 + 2 + 1)%nat)
  ∧ (∃ questions answers w',
       Adder.fill_batch 2 32 [] [] (notebook_world 42) = Ok (questions, answers, w')
       ∧ length questions = 32%nat
       ∧ Forall (λ q, length q = Adder.max_question_length 2) questions).
Proof.
  assert (1 ≤ 2)%nat as Hnd by lia.
  split; [exact Hnd|].
  exact (padded_question_length 2 32 (notebook_world 42) Hnd).
Defined.

(** [generation_appends_fifty] on the starting context of the notebook,
    with [block_size = 10]. *)
Lemma generation_appends_fifty_witness :
  (1 ≤ 10)%nat ∧ notebook_context ≠ []
  ∧ ∃ generated w' log,
      NanoGPT.generate 10 (list Z) (list Z) example_model example_div example_softmax
        example_multinomial notebook_context (notebook_world 1)
      = Ok (generated, w', log)
      ∧ length log = 50%nat
      ∧ length generated = (length notebook_context + 50)%nat.
Proof.
  assert (1 ≤ 10)%nat as Hblock by lia.
  assert (notebook_context ≠ []) as Hctx.
  { intros Hnil. pose proof notebook_context_length as Hlen.
    rewrite Hnil in Hlen. discriminate Hlen. }
  split; [exact Hblock|]. split; [exact Hctx|].
  destruct (generation_appends_fifty 10 (list Z) (list Z) example_model example_div
              example_softmax example_multinomial notebook_context (notebook_world 1)
              Hblock example_model_returns Hctx)
    as (generated & w' & log & Hgen & Hlog & _ & Hlen & _).
  exists generated, w', log. split; [exact Hgen|]. split; [exact Hlog | exact Hlen].
Defined.

(** [vocabulary_inverse] on a word and an id of the corpus and on a
    character and an id of the adder. *)
Lemma vocabulary_inverse_witness :
  (∃ k, 0 ≤ k < Z.of_nat (NanoGPT.vocab_size NanoGPT.text)
        ∧ NanoGPT.stoi NanoGPT.text !! "answer"%string = Some k
        ∧ NanoGPT.itos NanoGPT.text !! k = Some "answer"%string)
  ∧ (∃ w, w ∈ NanoGPT.unique_words NanoGPT.text
          ∧ NanoGPT.itos NanoGPT.text !! 12 = Some w
          ∧ NanoGPT.stoi NanoGPT.text !! w = Some 12)
  ∧ (∃ k, 0 ≤ k < Z.of_nat Adder.input_vocab_size
          ∧ Adder.input_stoi !! "+"%char = Some k ∧ Adder.input_itos !! k = Some "+"%char)
  ∧ (∃ c, c ∈ chars Adder.input_chars
          ∧ Adder.input_itos !! 11 = Some c ∧ Adder.input_stoi !! c = Some 11).
Proof.
  apply (vocabulary_inverse NanoGPT.text "answer" 12 "+"%char 11).
  - apply (bool_decide_unpack _). vm_compute. exact I.
  - rewrite notebook_vocab_size. lia.
  - apply (bool_decide_unpack _). vm_compute. exact I.
  - unfold Adder.input_vocab_size. simpl. lia.
Defined.

(** [batch_rows_are_windows] on the training half of the corpus. *)
Lemma batch_rows_are_windows_witness :
  (1 ≤ 32)%nat ∧ (10 < length notebook_train)%nat
  ∧ ∃ xs ys w',
      NanoGPT.get_batch notebook_train notebook_val 32 10 "train" (notebook_world 1)
      = Ok (T2 xs, T2 ys, w')
      ∧ length xs = 32%nat ∧ length ys = 32%nat.
Proof.
  assert (1 ≤ 32)%nat as Hbs by lia.
  assert (10 < length notebook_train)%nat as Hdata.
  { rewrite notebook_train_length. lia. }
  split; [exact Hbs|]. split; [exact Hdata|].
  destruct (batch_rows_are_windows notebook_train notebook_val 32 10 "train"
              (notebook_world 1) Hbs) as (xs & ys & w' & Hget & Hlx & Hly & _).
  { rewrite decide_True by reflexivity. exact Hdata. }
  exists xs, ys, w'. split; [exact Hget|]. split; [exact Hlx | exact Hly].
Defined.

(** Without a digit the maximum question length is 2, while the only
    question, ["0+0="], has four characters: the rows of the batch have
    length 4: the padding invariant needs at least one digit. *)
Example zero_digit_questions :
  (λ r : tensor * tensor * world Z, shape r.1.1)
    <$> Adder.get_batch 3 0 (notebook_world 42) = Ok [3; 4]%nat
  ∧ Adder.max_question_length 0 = 2%nat.
Proof. vm_compute. split; reflexivity. Qed.

(** With [block_size = 0] the crop [generated[:, -0:]] is the whole
    sequence: the window bound of the generation loop needs a positive
    block size. *)
Example zero_block_size_crop : slice_from [5; 6; 7] (- Z.of_nat 0) = [5; 6; 7].
Proof. reflexivity. Qed.

(** * More properties of the notebooks *)

(** ** Comprehensions *)

Lemma comprehension_first_failure {A B} (f : A → result B) (P : A → Prop)
    `{∀ x, Decision (P x)} (err : A → exn) (l : list A) :
  (∀ x, P x → ∃ y, f x = Ok y) →
  (∀ x, ¬ P x → f x = Raise (err x)) →
  ¬ Forall P l →
  ∃ l1 x l2, l = l1 ++ x :: l2 ∧ Forall P l1 ∧ ¬ P x
             ∧ comprehension f l = Raise (err x).
Proof.
  intros Hok Hbad. induction l as [|x l IH]; intros Hnot.
  - destruct Hnot. constructor.
  - destruct (decide (P x)) as [Hx|Hx].
    + destruct IH as (l1 & y & l2 & -> & Hl1 & Hy & Hraise).
      { intros Hl. apply Hnot. by constructor. }
      exists (x :: l1), y, l2. split; [done|]. split; [by constructor|]. split; [done|].
      rewrite comprehension_cons.
      destruct (Hok x Hx) as [v ->]. cbn [mbind result_bind]. by rewrite Hraise.
    + exists [], x, l. split; [done|]. split; [constructor|]. split; [done|].
      rewrite comprehension_cons. by rewrite (Hbad x Hx).
Qed.

Lemma comprehension_total {A B} (f : A → result B) (P : A → Prop) (l : list A) :
  (∀ x, P x → ∃ y, f x = Ok y) → Forall P l →
  ∃ k, comprehension f l = Ok k ∧ Forall2 (λ x y, f x = Ok y) l k.
Proof.
  intros Hok. induction 1 as [|x l Hx _ (k & Hk & Hall)].
  - exists []. split; [done|constructor].
  - destruct (Hok x Hx) as [y Hy]. exists (y :: k). split.
    + rewrite comprehension_cons, Hy. cbn [mbind result_bind]. by rewrite Hk.
    + by constructor.
Qed.

(** ** Decoding ids *)

Section NanoIds.
Variable text : string.

Lemma nano_itos_valid (i : Z) :
  valid_id (NanoGPT.vocab_size text) i →
  ∃ w, w ∈ NanoGPT.unique_words text
       ∧ getitem_int (NanoGPT.itos text) i = Ok w ∧ word_id text w = i.
Proof.
  intros (w & Hw & Hi & Hs)%nano_itos_stoi. exists w. split; [done|].
  split; [by apply getitem_int_Some|]. unfold word_id. by rewrite Hs.
Qed.

Lemma nano_itos_invalid (i : Z) :
  ¬ valid_id (NanoGPT.vocab_size text) i →
  getitem_int (NanoGPT.itos text) i = Raise (KeyError (KInt i)).
Proof.
  intros Hi. unfold getitem_int.
  destruct (NanoGPT.itos text !! i) as [w|] eqn:Hw; [|done].
  destruct Hi. by eapply enum_itos_range.
Qed.

(** The words of a list of valid ids. *)
Lemma valid_ids_words (l : list Z) :
  Forall (valid_id (NanoGPT.vocab_size text)) l →
  ∃ ws, Forall (λ w, w ∈ NanoGPT.unique_words text) ws ∧ l = word_id text <$> ws.
Proof.
  induction 1 as [|i l Hi _ (ws & Hws & ->)]; [by exists []|].
  destruct (nano_itos_valid i Hi) as (w & Hw & _ & <-).
  exists (w :: ws). split; [by constructor|done].
Qed.

Lemma word_id_valid (w : string) :
  w ∈ NanoGPT.unique_words text → valid_id (NanoGPT.vocab_size text) (word_id text w).
Proof.
  intros (i & Hi & Hs & _)%nano_stoi_itos. unfold word_id. by rewrite Hs.
Qed.
End NanoIds.

(** X1.  [decode] of the nanoGPT notebook raises [KeyError] at the first id
    that is negative or not below the vocabulary size, with that id as the
    key; the ids before it do not matter. *)
Theorem decode_invalid_id (text : string) (l : list Z) :
  ¬ Forall (valid_id (NanoGPT.vocab_size text)) l →
  ∃ l1 i l2, l = l1 ++ i :: l2
             ∧ Forall (valid_id (NanoGPT.vocab_size text)) l1
             ∧ ¬ valid_id (NanoGPT.vocab_size text) i
             ∧ NanoGPT.decode text l = Raise (KeyError (KInt i)).
Proof.
  intros Hl.
  destruct (comprehension_first_failure (getitem_int (NanoGPT.itos text))
              (valid_id (NanoGPT.vocab_size text)) (λ i, KeyError (KInt i)) l)
    as (l1 & i & l2 & Heq & Hl1 & Hi & Hraise); [| |done|].
  - intros i (w & _ & Hw & _)%nano_itos_valid. eauto.
  - apply nano_itos_invalid.
  - exists l1, i, l2. repeat (split; [done|]).
    unfold NanoGPT.decode. cbv zeta. by rewrite Hraise.
Qed.

Lemma decode_invalid_id_witness :
  ¬ Forall (valid_id (NanoGPT.vocab_size NanoGPT.text)) [12; 123; 14]
  ∧ ∃ l1 i l2, [12; 123; 14] = l1 ++ i :: l2
      ∧ Forall (valid_id (NanoGPT.vocab_size NanoGPT.text)) l1
      ∧ ¬ valid_id (NanoGPT.vocab_size NanoGPT.text) i
      ∧ NanoGPT.decode NanoGPT.text [12; 123; 14] = Raise (KeyError (KInt i)).
Proof.
  assert (¬ Forall (valid_id (NanoGPT.vocab_size NanoGPT.text)) [12; 123; 14]) as Hl.
  { apply (bool_decide_unpack _). vm_compute. exact I. }
  split; [exact Hl|]. exact (decode_invalid_id NanoGPT.text [12; 123; 14] Hl).
Defined.

(** X2.  [decode_input] of the adder raises [KeyError] at the first id
    outside [0, 13). *)
Theorem decode_input_invalid_id (l : list Z) :
  ¬ Forall (valid_id Adder.input_vocab_size) l →
  ∃ l1 i l2, l = l1 ++ i :: l2
             ∧ Forall (valid_id Adder.input_vocab_size) l1
             ∧ ¬ valid_id Adder.input_vocab_size i
             ∧ Adder.decode_input l = Raise (KeyError (KInt i)).
Proof.
  intros Hl.
  destruct (comprehension_first_failure (getitem_int Adder.input_itos)
              (valid_id Adder.input_vocab_size) (λ i, KeyError (KInt i)) l)
    as (l1 & i & l2 & Heq & Hl1 & Hi & Hraise); [| |done|].
  - intros i (c & _ & Hc & _)%adder_itos_stoi. exists c. by apply getitem_int_Some.
  - intros i Hi. unfold getitem_int.
    destruct (Adder.input_itos !! i) as [c|] eqn:Hc; [|done].
    destruct Hi. unfold valid_id, Adder.input_vocab_size. rewrite <- length_chars.
    by eapply enum_itos_range.
  - exists l1, i, l2. repeat (split; [done|]).
    unfold Adder.decode_input. by rewrite Hraise.
Qed.

Lemma decode_input_invalid_id_witness :
  ¬ Forall (valid_id Adder.input_vocab_size) [2; 10; 13]
  ∧ ∃ l1 i l2, [2; 10; 13] = l1 ++ i :: l2
      ∧ Forall (valid_id Adder.input_vocab_size) l1
      ∧ ¬ valid_id Adder.input_vocab_size i
      ∧ Adder.decode_input [2; 10; 13] = Raise (KeyError (KInt i)).
Proof.
  assert (¬ Forall (valid_id Adder.input_vocab_size) [2; 10; 13]) as Hl.
  { apply (bool_decide_unpack _). vm_compute. exact I. }
  split; [exact Hl|]. exact (decode_input_invalid_id [2; 10; 13] Hl).
Defined.

(** X3.  [encode] of the nanoGPT notebook returns ids of the vocabulary
    only, at most one per token of the string. *)
Theorem encode_ids_valid (text s : string) :
  ∃ ids, NanoGPT.encode text s = Ok ids
         ∧ Forall (valid_id (NanoGPT.vocab_size text)) ids
         ∧ (length ids ≤ length (findall_words (lower s)))%nat.
Proof.
  exists (word_id text <$> known_words text s). split; [apply encode_Ok|]. split.
  - apply Forall_fmap. eapply Forall_impl; [apply known_words_known|].
    intros w Hw. by apply word_id_valid.
  - rewrite length_fmap. unfold known_words. apply length_filter.
Qed.

(** X4.  On every list of valid ids [decode] returns, and [encode] maps the
    decoded string back to the list: [encode(decode(l)) = l]. *)
Theorem encode_decode_ids (text : string) (l : list Z) :
  Forall (valid_id (NanoGPT.vocab_size text)) l →
  ∃ d, NanoGPT.decode text l = Ok d ∧ NanoGPT.encode text d = Ok l.
Proof.
  intros (ws & Hws & ->)%valid_ids_words.
  exists (decoded ws). split; [by apply decode_ids|].
  rewrite encode_Ok. by rewrite known_words_decoded.
Qed.

Lemma encode_decode_ids_witness :
  Forall (valid_id (NanoGPT.vocab_size NanoGPT.text)) [0; 3; 122; 3; 0]
  ∧ ∃ d, NanoGPT.decode NanoGPT.text [0; 3; 122; 3; 0] = Ok d
         ∧ NanoGPT.encode NanoGPT.text d = Ok [0; 3; 122; 3; 0].
Proof.
  assert (Forall (valid_id (NanoGPT.vocab_size NanoGPT.text)) [0; 3; 122; 3; 0]) as Hl.
  { apply (bool_decide_unpack _). vm_compute. exact I. }
  split; [exact Hl|]. exact (encode_decode_ids NanoGPT.text [0; 3; 122; 3; 0] Hl).
Defined.

(** X5.  On every list of ids in [0, 13) [decode_input] returns a string
    of the same length, and [encode_input] maps it back to the list. *)
Theorem encode_input_decode_input (l : list Z) :
  Forall (valid_id Adder.input_vocab_size) l →
  ∃ s, Adder.decode_input l = Ok s ∧ String.length s = length l
       ∧ Adder.encode_input s = Ok l.
Proof.
  intros Hl.
  assert (∃ cs, Forall2 (λ i c, Adder.input_itos !! i = Some c
                                ∧ Adder.input_stoi !! c = Some i) l cs) as [cs Hcs].
  { induction Hl as [|i l Hi _ [cs IH]]; [by exists []|].
    destruct (adder_itos_stoi i Hi) as (c & _ & ? & ?). exists (c :: cs). by constructor. }
  exists (of_chars cs). split; [|split].
  - unfold Adder.decode_input. rewrite (comprehension_Forall2 _ l cs); [done|].
    eapply Forall2_impl; [exact Hcs|]. intros i c [Hi _]. by apply getitem_int_Some.
  - rewrite <- length_chars, chars_of_chars. symmetry. by eapply Forall2_length.
  - unfold Adder.encode_input. rewrite chars_of_chars.
    apply comprehension_Forall2, Forall2_flip.
    eapply Forall2_impl; [exact Hcs|]. intros i c [_ Hc]. by apply getitem_str_Some.
Qed.

Lemma encode_input_decode_input_witness :
  Forall (valid_id Adder.input_vocab_size) [12; 11; 10; 0; 9]
  ∧ ∃ s, Adder.decode_input [12; 11; 10; 0; 9] = Ok s
         ∧ String.length s = length [12; 11; 10; 0; 9]
         ∧ Adder.encode_input s = Ok [12; 11; 10; 0; 9].
Proof.
  assert (Forall (valid_id Adder.input_vocab_size) [12; 11; 10; 0; 9]) as Hl.
  { apply (bool_decide_unpack _). vm_compute. exact I. }
  split; [exact Hl|]. exact (encode_input_decode_input [12; 11; 10; 0; 9] Hl).
Defined.

(** ** Encoding in pieces *)

Lemma space_not_word (c : ascii) : is_space c = true → is_word c = false.
Proof. each_char c. Qed.

Lemma space_lower (c : ascii) : is_space c = true → lower_char c = c.
Proof. each_char c. Qed.

Lemma scan_separator (s1 : list ascii) : ∀ (cur : list ascii) (c : ascii) (s2 : list ascii),
  is_space c = true →
  scan cur (s1 ++ c :: s2) = scan cur s1 ++ scan [] s2.
Proof.
  induction s1 as [|d s1 IH]; intros cur c s2 Hc.
  - simpl app. rewrite scan_space by (by try apply space_not_word). done.
  - simpl. destruct (is_word d).
    + by apply IH.
    + destruct (is_space d); rewrite IH by done.
      * by rewrite app_assoc.
      * by rewrite app_comm_cons, app_assoc.
Qed.

Lemma findall_words_separator (s1 s2 : string) (sep : ascii) :
  is_space sep = true →
  findall_words (lower (s1 +:+ String sep s2))
  = findall_words (lower s1) ++ findall_words (lower s2).
Proof.
  intros Hsep. unfold findall_words. rewrite !chars_lower, chars_app.
  change (chars (String sep s2)) with (sep :: chars s2).
  rewrite fmap_app, fmap_cons, (space_lower sep Hsep).
  by apply scan_separator.
Qed.

(** X6.  [encode] works piecewise: the ids of two strings joined by a
    whitespace character are the ids of the first followed by the ids of
    the second. *)
Theorem encode_whitespace_concat (text s1 s2 : string) (sep : ascii) :
  is_space sep = true →
  ∃ ids1 ids2,
    NanoGPT.encode text s1 = Ok ids1 ∧ NanoGPT.encode text s2 = Ok ids2
    ∧ NanoGPT.encode text (s1 +:+ String sep s2) = Ok (ids1 ++ ids2).
Proof.
  intros Hsep.
  exists (word_id text <$> known_words text s1), (word_id text <$> known_words text s2).
  rewrite !encode_Ok. split; [done|]. split; [done|].
  unfold known_words. rewrite findall_words_separator by done.
  by rewrite filter_app, fmap_app.
Qed.

Lemma encode_whitespace_concat_witness :
  is_space "010" = true
  ∧ ∃ ids1 ids2,
      NanoGPT.encode NanoGPT.text "Well, sir" = Ok ids1
      ∧ NanoGPT.encode NanoGPT.text "what answer?" = Ok ids2
      ∧ NanoGPT.encode NanoGPT.text ("Well, sir" +:+ String "010" "what answer?")
        = Ok (ids1 ++ ids2).
Proof.
  assert (is_space "010" = true) as Hsep by reflexivity.
  split; [exact Hsep|].
  exact (encode_whitespace_concat NanoGPT.text "Well, sir" "what answer?" "010" Hsep).
Defined.

(** ** The corpus and its vocabulary *)

Section Corpus.
Variable text : string.

Lemma corpus_words_known : known_words text text = NanoGPT.words text.
Proof.
  unfold known_words. fold (NanoGPT.words text). apply filter_all.
  apply Forall_forall. intros w Hw. apply nano_stoi_is_Some.
  by apply elem_of_unique_words.
Qed.

Lemma data_ids : NanoGPT.data text = Ok (word_id text <$> NanoGPT.words text).
Proof. unfold NanoGPT.data. by rewrite encode_Ok, corpus_words_known. Qed.

Lemma words_known : Forall (λ w, w ∈ NanoGPT.unique_words text) (NanoGPT.words text).
Proof. apply Forall_forall. intros w Hw. by apply elem_of_unique_words. Qed.
End Corpus.

(** X7.  Encoding the corpus with its own vocabulary drops no token: the
    data has one id per token of the text, decoding it gives a string with
    the same tokens, and the vocabulary is no larger than the data. *)
Theorem corpus_encoded_whole (text : string) :
  ∃ ids d,
    NanoGPT.data text = Ok ids
    ∧ length ids = length (findall_words (lower text))
    ∧ NanoGPT.decode text ids = Ok d
    ∧ findall_words (lower d) = findall_words (lower text)
    ∧ (NanoGPT.vocab_size text ≤ length ids)%nat.
Proof.
  exists (word_id text <$> NanoGPT.words text), (decoded (NanoGPT.words text)).
  split; [apply data_ids|]. split; [by rewrite length_fmap|].
  split; [apply decode_ids, words_known|]. split.
  - apply retokenize. eapply Forall_impl; [apply words_known|]. apply vocabulary_tokens.
  - rewrite length_fmap. unfold NanoGPT.vocab_size. apply submseteq_length.
    apply NoDup_submseteq; [apply unique_words_NoDup|].
    intros w Hw. by apply elem_of_unique_words.
Qed.

Lemma StronglySorted_lookup_lt {A} (R : relation A) (l : list A) : ∀ (i j : nat) (x y : A),
  StronglySorted R l → (i < j)%nat → l !! i = Some x → l !! j = Some y → R x y.
Proof.
  induction l as [|z l IH]; intros i j x y Hsorted Hij Hi Hj; [done|].
  apply StronglySorted_inv in Hsorted as [Hsorted Hz].
  destruct j as [|j]; [lia|]. destruct i as [|i]; simpl in *.
  - injection Hi as <-. rewrite Forall_forall in Hz. apply Hz.
    by eapply list_elem_of_lookup_2.
  - eapply (IH i j); [done|lia|done..].
Qed.

(** X8.  Ids follow the order of the words: for two words of the
    vocabulary, the id of the first is at most the id of the second
    exactly when the first word is at most the second in the order of
    strings. *)
Theorem ids_follow_word_order (text w1 w2 : string) (i1 i2 : Z) :
  NanoGPT.stoi text !! w1 = Some i1 →
  NanoGPT.stoi text !! w2 = Some i2 →
  (i1 ≤ i2 ↔ String.le w1 w2).
Proof.
  intros H1 H2.
  assert (∀ w i, NanoGPT.stoi text !! w = Some i →
            0 ≤ i ∧ NanoGPT.unique_words text !! Z.to_nat i = Some w) as Hpos.
  { intros w i Hw.
    destruct (nano_stoi_itos text w) as (k & Hk & Hs & Hi).
    { apply nano_stoi_is_Some. by exists i. }
    rewrite Hw in Hs. injection Hs as <-.
    unfold NanoGPT.itos in Hi. rewrite itos_lookup, decide_True in Hi by lia.
    split; [lia|done]. }
  destruct (Hpos w1 i1 H1) as [Hi1 Hn1]. destruct (Hpos w2 i2 H2) as [Hi2 Hn2].
  pose proof (StronglySorted_merge_sort String.le
                (elements (list_to_set (NanoGPT.words text) : gset string))) as Hsorted.
  fold (NanoGPT.unique_words text) in Hsorted.
  split.
  - intros Hle. destruct (decide (i1 = i2)) as [->|Hne].
    + rewrite Hn1 in Hn2. injection Hn2 as ->. done.
    + eapply (StronglySorted_lookup_lt _ _ (Z.to_nat i1) (Z.to_nat i2)); [done|lia|done..].
  - intros Hle. destruct (decide (i1 ≤ i2)) as [|Hgt]; [done|].
    assert (String.le w2 w1) as Hge.
    { eapply (StronglySorted_lookup_lt _ _ (Z.to_nat i2) (Z.to_nat i1)); [done|lia|done..]. }
    assert (w1 = w2) as -> by (by apply (anti_symm String.le)).
    pose proof (NoDup_lookup _ _ _ _ (unique_words_NoDup text) Hn1 Hn2). lia.
Qed.

Lemma ids_follow_word_order_witness :
  NanoGPT.stoi NanoGPT.text !! "an"%string = Some 12
  ∧ NanoGPT.stoi NanoGPT.text !! "answer"%string = Some 14
  ∧ (12 ≤ 14 ↔ String.le "an" "answer").
Proof.
  assert (NanoGPT.stoi NanoGPT.text !! "an"%string = Some 12) as H1
    by (vm_compute; reflexivity).
  assert (NanoGPT.stoi NanoGPT.text !! "answer"%string = Some 14) as H2
    by (vm_compute; reflexivity).
  split; [exact H1|]. split; [exact H2|].
  exact (ids_follow_word_order NanoGPT.text "an" "answer" 12 14 H1 H2).
Defined.

Lemma slice_prefix {A} (l : list A) (n : Z) :
  0 ≤ n → slice l 0 n = take (Z.to_nat n) l.
Proof.
  intros Hn. unfold slice, slice_bound.
  destruct (Z.ltb_spec n 0) as [?|_]; [lia|].
  change (0 <? 0) with false. cbv iota.
  change (Z.to_nat 0) with 0%nat. rewrite Nat.min_0_l, Nat.sub_0_r, drop_0.
  destruct (Nat.le_ge_cases (Z.to_nat n) (length l)) as [Hle|Hge].
  - by rewrite Nat.min_l.
  - rewrite Nat.min_r by done. by rewrite !take_ge by lia.
Qed.

Lemma slice_from_nonneg {A} (l : list A) (n : Z) :
  0 ≤ n → slice_from l n = drop (Z.to_nat n) l.
Proof.
  intros Hn. unfold slice_from, slice_bound.
  destruct (Z.ltb_spec n 0) as [?|_]; [lia|].
  destruct (Nat.le_ge_cases (Z.to_nat n) (length l)) as [Hle|Hge].
  - by rewrite Nat.min_l.
  - rewrite Nat.min_r by done. by rewrite !drop_ge by lia.
Qed.

Lemma split_halves (text : string) :
  let d := word_id text <$> NanoGPT.words text in
  NanoGPT.train_data text = Ok (take (length d / 2) d)
  ∧ NanoGPT.val_data text = Ok (drop (length d / 2) d).
Proof.
  intros d.
  assert (Z.to_nat (NanoGPT.split_point d) = (length d / 2)%nat) as Hn.
  { unfold NanoGPT.split_point. rewrite Z2Nat.inj_div by lia.
    by rewrite Nat2Z.id. }
  assert (0 ≤ NanoGPT.split_point d) as Hpos.
  { unfold NanoGPT.split_point. apply Z.div_pos; lia. }
  split.
  - unfold NanoGPT.train_data. rewrite data_ids. cbn [mbind result_bind]. fold d.
    unfold mret, result_ret. by rewrite slice_prefix, Hn.
  - unfold NanoGPT.val_data. rewrite data_ids. cbn [mbind result_bind]. fold d.
    unfold mret, result_ret. by rewrite slice_from_nonneg, Hn.
Qed.

(** X9.  The training and the validation data are the two halves of the
    data, in order: together they are the data, the training half has
    [len(data) // 2] ids and the validation half the rest, so it is never
    the shorter one. *)
Theorem train_val_partition (text : string) :
  ∃ d tr va,
    NanoGPT.data text = Ok d
    ∧ NanoGPT.train_data text = Ok tr ∧ NanoGPT.val_data text = Ok va
    ∧ tr ++ va = d
    ∧ length tr = (length d / 2)%nat
    ∧ (length tr ≤ length va ≤ length tr + 1)%nat.
Proof.
  destruct (split_halves text) as [Htr Hva].
  set (d := word_id text <$> NanoGPT.words text) in *.
  exists d, (take (length d / 2) d), (drop (length d / 2) d).
  split; [apply data_ids|]. split; [done|]. split; [done|].
  split; [apply take_drop|]. rewrite length_take, length_drop.
  pose proof (Nat.div_mod_eq (length d) 2) as Hdiv.
  pose proof (Nat.mod_upper_bound (length d) 2) as Hmod.
  lia.
Qed.

Lemma nano_get_batch_raises {G : Type} `{RandomGen G}
    (train_data val_data : list Z) (batch_size block_size : nat) (split : string)
    (w : world G) :
  ¬ ((1 ≤ batch_size)%nat
     ∧ (block_size < length (if decide (split = "train"%string)
                             then train_data else val_data))%nat) →
  NanoGPT.get_batch train_data val_data batch_size block_size split w
  = Raise RuntimeError.
Proof.
  intros Hnot. unfold NanoGPT.get_batch, torch_randint.
  destruct (Z.ltb_spec 0 (Z.of_nat (length (if decide (split = "train"%string)
                                           then train_data else val_data))
                          - Z.of_nat block_size)) as [Hlt|Hge]; [|done].
  assert (batch_size = 0%nat) as -> by lia. done.
Qed.

(** X10.  The nanoGPT sampler returns a batch exactly when the batch size
    is positive and the split has more than [block_size] tokens; in every
    other case it raises [RuntimeError]. *)
Theorem nano_get_batch_success {G : Type} `{RandomGen G}
    (train_data val_data : list Z) (batch_size block_size : nat) (split : string)
    (w : world G) :
  let data := if decide (split = "train"%string) then train_data else val_data in
  if decide ((1 ≤ batch_size)%nat ∧ (block_size < length data)%nat)
  then ∃ x y w',
         NanoGPT.get_batch train_data val_data batch_size block_size split w
         = Ok (x, y, w')
  else NanoGPT.get_batch train_data val_data batch_size block_size split w
       = Raise RuntimeError.
Proof.
  intros data. destruct (decide (_ ∧ _)) as [[Hbs Hdata]|Hnot].
  - destruct (nano_get_batch_spec train_data val_data batch_size block_size split
                Hbs Hdata w) as (ix & w' & Hget & _).
    eexists _, _, w'. exact Hget.
  - by apply nano_get_batch_raises.
Qed.

(** ** The printed examples of a batch *)

Lemma list_getitem_Ok {A} (l : list A) (n : nat) (x : A) :
  l !! n = Some x → list_getitem l (Z.of_nat n) = Ok x.
Proof.
  intros Hn. unfold list_getitem.
  assert ((Z.of_nat n <? 0) = false) as Hlt by (apply Z.ltb_ge; lia).
  cbv zeta. rewrite Hlt. cbv iota. rewrite Hlt. by rewrite Nat2Z.id, Hn.
Qed.

Lemma Forall_slice {A} (P : A → Prop) (l : list A) (start stop : Z) :
  Forall P l → Forall P (slice l start stop).
Proof. intros Hl. unfold slice. by apply Forall_take, Forall_drop. Qed.

Lemma range_spec (n : nat) (i : Z) : i ∈ range n → ∃ k, i = Z.of_nat k ∧ (k < n)%nat.
Proof.
  unfold range. intros (k & -> & Hk)%list_elem_of_fmap.
  apply elem_of_seq in Hk. exists k. split; [done|lia].
Qed.

Lemma length_range (n : nat) : length (range n) = n.
Proof. unfold range. by rewrite length_fmap, length_seq. Qed.

Lemma corpus_halves_valid (text : string) (tr va : list Z) :
  NanoGPT.train_data text = Ok tr → NanoGPT.val_data text = Ok va →
  Forall (valid_id (NanoGPT.vocab_size text)) tr
  ∧ Forall (valid_id (NanoGPT.vocab_size text)) va.
Proof.
  destruct (split_halves text) as [-> ->]. intros [= <-] [= <-].
  assert (Forall (valid_id (NanoGPT.vocab_size text))
            (word_id text <$> NanoGPT.words text)) as Hd.
  { apply Forall_fmap. eapply Forall_impl; [apply words_known|].
    intros w Hw. by apply word_id_valid. }
  split; [by apply Forall_take | by apply Forall_drop].
Qed.

Lemma decode_valid (text : string) (l : list Z) :
  Forall (valid_id (NanoGPT.vocab_size text)) l → ∃ d, NanoGPT.decode text l = Ok d.
Proof.
  intros (ws & Hws & ->)%valid_ids_words. exists (decoded ws). by apply decode_ids.
Qed.

(** X11.  The loop that prints the examples of a batch never fails on a
    batch sampled from the corpus: every id of the batch is an id of the
    vocabulary, so each context decodes and each target has a word.  It
    shows [min(2, batch_size)] rows of [min(8, block_size)] pairs. *)
Theorem show_examples_of_batch {G : Type} `{RandomGen G} (text : string)
    (tr va : list Z) (batch_size block_size : nat) (split : string) (w w' : world G)
    (xb yb : list (list Z)) :
  NanoGPT.train_data text = Ok tr →
  NanoGPT.val_data text = Ok va →
  NanoGPT.get_batch tr va batch_size block_size split w = Ok (T2 xb, T2 yb, w') →
  Forall (Forall (valid_id (NanoGPT.vocab_size text))) (xb ++ yb)
  ∧ ∃ shown,
      NanoDemo.show_examples text batch_size block_size xb yb = Ok shown
      ∧ length shown = Nat.min 2 batch_size
      ∧ Forall (λ row, length row = Nat.min 8 block_size) shown.
Proof.
  intros Htr Hva Hget.
  destruct (corpus_halves_valid text tr va Htr Hva) as [Hvtr Hvva].
  set (data := if decide (split = "train"%string) then tr else va).
  assert (Forall (valid_id (NanoGPT.vocab_size text)) data) as Hdata.
  { unfold data. by destruct (decide _). }
  destruct (decide ((1 ≤ batch_size)%nat ∧ (block_size < length data)%nat))
    as [[Hbs Hlen]|Hnot].
  2:{ rewrite (nano_get_batch_raises tr va batch_size block_size split w Hnot) in Hget.
      discriminate Hget. }
  destruct (nano_get_batch_spec tr va batch_size block_size split Hbs Hlen w)
    as (ix & w1 & Hspec & Hix & Hrange & _).
  fold data in Hspec, Hrange.
  rewrite Hspec in Hget. injection Hget as <- <- <-.
  set (xb := (λ i, slice data i (i + Z.of_nat block_size)) <$> ix).
  set (yb := (λ i, slice data (i + 1) (i + Z.of_nat block_size + 1)) <$> ix).
  assert (Forall (λ r, Forall (valid_id (NanoGPT.vocab_size text)) r
                       ∧ length r = block_size) xb) as Hxb.
  { apply Forall_fmap. eapply Forall_impl; [exact Hrange|]. intros i Hi.
    cbv beta in Hi. unfold compose. split; [by apply Forall_slice|].
    apply slice_window; lia. }
  assert (Forall (λ r, Forall (valid_id (NanoGPT.vocab_size text)) r
                       ∧ length r = block_size) yb) as Hyb.
  { apply Forall_fmap. eapply Forall_impl; [exact Hrange|]. intros i Hi.
    cbv beta in Hi. unfold compose. split; [by apply Forall_slice|].
    replace (i + Z.of_nat block_size + 1) with (i + 1 + Z.of_nat block_size) by lia.
    apply slice_window; lia. }
  split.
  { apply Forall_app. split; (eapply Forall_impl; [eassumption|]); by intros r [? _]. }
  assert (length xb = batch_size ∧ length yb = batch_size) as [Hlx Hly].
  { unfold xb, yb. by rewrite !length_fmap. }
  destruct (comprehension_total
              (λ b, comprehension (λ t, NanoDemo.example_at text xb yb b t)
                      (range (Nat.min 8 block_size)))
              (λ b, b ∈ range (Nat.min 2 batch_size)) (range (Nat.min 2 batch_size)))
    as (shown & Hshown & Hrows).
  - intros b (kb & -> & Hkb)%range_spec.
    destruct (lookup_lt_is_Some_2 xb kb) as [row Hrow]; [lia|].
    destruct (lookup_lt_is_Some_2 yb kb) as [targets Htargets]; [lia|].
    rewrite Forall_forall in Hxb, Hyb.
    destruct (Hxb row (list_elem_of_lookup_2 _ _ _ Hrow)) as [Hvrow _].
    destruct (Hyb targets (list_elem_of_lookup_2 _ _ _ Htargets)) as [Hvt Hlt].
    destruct (comprehension_total (λ t, NanoDemo.example_at text xb yb (Z.of_nat kb) t)
                (λ t, t ∈ range (Nat.min 8 block_size)) (range (Nat.min 8 block_size)))
      as (pairs & Hpairs & _); [|by apply Forall_forall|by exists pairs].
    intros t (kt & -> & Hkt)%range_spec.
    destruct (lookup_lt_is_Some_2 targets kt) as [target Htarget]; [lia|].
    destruct (decode_valid text (slice row 0 (Z.of_nat kt + 1))) as [d Hd];
      [by apply Forall_slice|].
    rewrite Forall_forall in Hvt.
    destruct (nano_itos_valid text target (Hvt _ (list_elem_of_lookup_2 _ _ _ Htarget)))
      as (word & _ & Hword & _).
    exists (d, word). unfold NanoDemo.example_at.
    rewrite (list_getitem_Ok _ _ _ Hrow). cbn [mbind result_bind]. rewrite Hd.
    cbn [mbind result_bind]. rewrite (list_getitem_Ok _ _ _ Htargets).
    cbn [mbind result_bind]. rewrite (list_getitem_Ok _ _ _ Htarget).
    cbn [mbind result_bind]. rewrite Hword. done.
  - by apply Forall_forall.
  - exists shown. unfold NanoDemo.show_examples. split; [exact Hshown|]. split.
    + apply comprehension_length in Hshown. by rewrite Hshown, length_range.
    + eapply Forall2_Forall_r; [exact Hrows|]. apply Forall_forall.
      intros b _ row Hrow. apply comprehension_length in Hrow.
      by rewrite Hrow, length_range.
Qed.

Lemma show_examples_of_batch_witness :
  ∃ xb yb w' shown,
    NanoGPT.get_batch notebook_train notebook_val 32 10 "train" (notebook_world 1)
    = Ok (T2 xb, T2 yb, w')
    ∧ NanoDemo.show_examples NanoGPT.text 32 10 xb yb = Ok shown
    ∧ length shown = Nat.min 2 32.
Proof.
  assert (NanoGPT.train_data NanoGPT.text = Ok notebook_train) as Htr
    by (vm_compute; reflexivity).
  assert (NanoGPT.val_data NanoGPT.text = Ok notebook_val) as Hva
    by (vm_compute; reflexivity).
  assert (∃ xb yb w',
            NanoGPT.get_batch notebook_train notebook_val 32 10 "train" (notebook_world 1)
            = Ok (T2 xb, T2 yb, w')) as (xb & yb & w' & Hget).
  { vm_compute. eexists _, _, _. reflexivity. }
  destruct (show_examples_of_batch NanoGPT.text notebook_train notebook_val 32 10
              "train" (notebook_world 1) w' xb yb Htr Hva Hget)
    as (_ & shown & Hshown & Hlen & _).
  exists xb, yb, w', shown. split; [exact Hget|]. split; [exact Hshown | exact Hlen].
Defined.

(** ** Questions and labels of the adder *)

Lemma split_at_separator {A} (x : A) (l1 : list A) : ∀ (l2 r1 r2 : list A),
  x ∉ l1 → x ∉ l2 → l1 ++ x :: r1 = l2 ++ x :: r2 → l1 = l2 ∧ r1 = r2.
Proof.
  induction l1 as [|y l1 IH]; intros [|z l2] r1 r2 H1 H2 Heq; simpl in Heq.
  - by injection Heq.
  - injection Heq as <- _. destruct H2. by left.
  - injection Heq as -> _. destruct H1. by left.
  - injection Heq as -> Heq. apply not_elem_of_cons in H1 as [_ H1].
    apply not_elem_of_cons in H2 as [_ H2].
    destruct (IH l2 r1 r2 H1 H2 Heq) as [-> ->]. done.
Qed.

Lemma digit_not_plus (c : ascii) : is_digit c → c ≠ "+"%char.
Proof.
  intros (d & Hd & ->).
  assert (d = 0 ∨ d = 1 ∨ d = 2 ∨ d = 3 ∨ d = 4 ∨ d = 5 ∨ d = 6 ∨ d = 7 ∨ d = 8 ∨ d = 9)
    as Hcases by lia.
  repeat (destruct Hcases as [->|Hcases]; [by vm_compute|]).
  subst d. by vm_compute.
Qed.

Lemma str_no_plus (n : Z) : 0 ≤ n → "+"%char ∉ chars (str n).
Proof.
  intros Hn Hin. pose proof (str_is_digits n Hn) as Hdig.
  rewrite Forall_forall in Hdig. by apply (digit_not_plus _ (Hdig _ Hin)).
Qed.

Lemma str_inj (n m : Z) : 0 ≤ n → 0 ≤ m → str n = str m → n = m.
Proof.
  intros Hn Hm Heq. rewrite <- (int_of_digits_str n Hn), <- (int_of_digits_str m Hm).
  by rewrite Heq.
Qed.

Lemma question_of_inj (a b a' b' : Z) :
  0 ≤ a → 0 ≤ b → 0 ≤ a' → 0 ≤ b' →
  question_of a b = question_of a' b' → a = a' ∧ b = b'.
Proof.
  intros Ha Hb Ha' Hb' Heq. apply (f_equal chars) in Heq.
  unfold question_of in Heq. rewrite !chars_app in Heq.
  change (chars "+") with ["+"%char] in Heq. change (chars "=") with ["="%char] in Heq.
  simpl app in Heq.
  apply split_at_separator in Heq as [Hsa Hsb]; [|by apply str_no_plus..].
  apply app_inj_tail in Hsb as [Hsb _].
  split; apply str_inj; try done; by apply chars_inj.
Qed.

(** X12.  A question determines its operands and its label: two generated
    problems with the same question string have the same answer, whatever
    the generator states and digit counts they were generated with. *)
Theorem same_question_same_answer {G : Type} `{RandomGen G} (n1 n2 : nat)
    (w1 w2 w1' w2' : world G) (question : string) (answer1 answer2 : Z) :
  Adder.generate_addition_data n1 w1 = Ok (question, answer1, w1') →
  Adder.generate_addition_data n2 w2 = Ok (question, answer2, w2') →
  answer1 = answer2
  ∧ ∃ a b, 0 ≤ a ∧ 0 ≤ b ∧ question = question_of a b ∧ answer1 = a + b
           ∧ ∀ a' b', 0 ≤ a' → 0 ≤ b' → question = question_of a' b' → a' = a ∧ b' = b.
Proof.
  intros H1 H2.
  destruct (generate_addition_data_spec n1 w1) as (a & b & w1'' & Hg1 & Ha & Hb & _).
  destruct (generate_addition_data_spec n2 w2) as (a' & b' & w2'' & Hg2 & Ha' & Hb' & _).
  rewrite H1 in Hg1. rewrite H2 in Hg2.
  injection Hg1 as Hq1 -> _. injection Hg2 as Hq2 -> _.
  fold (question_of a b) in Hq1. fold (question_of a' b') in Hq2.
  destruct (question_of_inj a b a' b') as [-> ->]; [lia..|congruence|].
  split; [done|]. exists a', b'. split; [lia|]. split; [lia|]. split; [done|].
  split; [done|]. intros a0 b0 Ha0 Hb0 Heq.
  apply question_of_inj; [lia..|congruence].
Qed.

Lemma same_question_same_answer_witness :
  ∃ question answer w',
    Adder.generate_addition_data 2 (notebook_world 42) = Ok (question, answer, w')
    ∧ ∃ a b, 0 ≤ a ∧ 0 ≤ b ∧ question = question_of a b ∧ answer = a + b.
Proof.
  assert (∃ question answer w',
            Adder.generate_addition_data 2 (notebook_world 42)
            = Ok (question, answer, w')) as (question & answer & w' & Hgen).
  { vm_compute. eexists _, _, _. reflexivity. }
  destruct (same_question_same_answer 2 2 (notebook_world 42) (notebook_world 42) w' w'
              question answer answer Hgen Hgen) as (_ & a & b & Ha & Hb & Hq & Hans & _).
  exists question, answer, w'. split; [exact Hgen|].
  exists a, b. repeat (split; [assumption|]). exact Hans.
Defined.

Section AdderRows.
Context {G : Type} `{RandomGen G}.
Variable ndigit : nat.

Lemma fill_batch_rows (n : nat) : ∀ (questions : list (list Z)) (answers : list Z)
    (w : world G),
  ∃ qs ans w',
    Adder.fill_batch ndigit n questions answers w
      = Ok (questions ++ qs, answers ++ ans, w')
    ∧ Forall2 (row_of_problem ndigit) qs ans.
Proof.
  induction n as [|n IH]; intros questions answers w.
  - exists [], [], w. simpl. rewrite !app_nil_r. split; [done|constructor].
  - destruct (generate_addition_data_spec ndigit w) as (a & b & w1 & Hgen & Ha & Hb & _).
    destruct (encode_input_known
                (ljust (question_of a b) (Adder.max_question_length ndigit)))
      as (enc & Henc & _ & _ & Hdec).
    { apply ljust_known. apply question_known; lia. }
    destruct (IH (questions ++ [enc]) (answers ++ [a + b]) w1)
      as (qs & ans & w' & Hfill & Hrows).
    exists (enc :: qs), ((a + b) :: ans), w'.
    cbn [Adder.fill_batch]. rewrite Hgen. cbn [mbind result_bind].
    fold (question_of a b). rewrite Henc. cbn [mbind result_bind]. rewrite Hfill.
    rewrite <- !app_assoc. split; [done|]. constructor; [|done].
    exists a, b. done.
Qed.
End AdderRows.

(** X13.  In a batch of the adder every input row and the label at the
    same position belong to the same problem: the row decodes to the
    padded question ["a+b="] of two operands in range, and the label is
    [a + b]. *)
Theorem batch_rows_match_labels {G : Type} `{RandomGen G} (batch_size ndigit : nat)
    (w : world G) :
  (1 ≤ batch_size)%nat → (1 ≤ ndigit ≤ 18)%nat →
  ∃ rows labels w',
    Adder.get_batch batch_size ndigit w = Ok (T2 rows, T1 labels, w')
    ∧ Forall2 (row_of_problem ndigit) rows labels.
Proof.
  intros Hbs Hnd.
  destruct (adder_get_batch_spec batch_size ndigit Hbs Hnd w)
    as (rows & labels & w' & Hget & _).
  destruct (fill_batch_rows ndigit batch_size [] [] w) as (qs & ans & w1 & Hfill & Hrows).
  exists rows, labels, w'. split; [exact Hget|].
  unfold Adder.get_batch in Hget. rewrite Hfill in Hget. cbn [mbind result_bind] in Hget.
  simpl app in Hget.
  assert (rows = qs ∧ labels = ans) as [-> ->]; [|done].
  unfold torch_tensor2, torch_tensor1 in Hget.
  destruct qs as [|q qs].
  { cbn [mbind result_bind] in Hget. destruct (forallb fits_int64 ans); discriminate Hget. }
  destruct (negb (same_length (q :: qs))); [discriminate Hget|].
  destruct (forallb (forallb fits_int64) (q :: qs)); [|discriminate Hget].
  cbn [mbind result_bind] in Hget.
  destruct (forallb fits_int64 ans); [|discriminate Hget].
  cbn [mbind result_bind] in Hget. unfold mret, result_ret in Hget.
  by injection Hget as <- <- _.
Qed.

Lemma batch_rows_match_labels_witness :
  (1 ≤ 32)%nat ∧ (1 ≤ 2 ≤ 18)%nat
  ∧ ∃ rows labels w',
      Adder.get_batch 32 2 (notebook_world 42) = Ok (T2 rows, T1 labels, w')
      ∧ Forall2 (row_of_problem 2) rows labels.
Proof.
  assert (1 ≤ 32)%nat as Hbs by lia.
  assert (1 ≤ 2 ≤ 18)%nat as Hnd by lia.
  split; [exact Hbs|]. split; [exact Hnd|].
  exact (batch_rows_match_labels 32 2 (notebook_world 42) Hbs Hnd).
Defined.

(** ** Asking the adder *)

Lemma endswith_app (s suffix : string) : endswith (s +:+ suffix) suffix = true.
Proof.
  unfold endswith. apply bool_decide_eq_true. rewrite chars_app.
  by apply suffix_app_r.
Qed.

Lemma row_tensor_ids (row : list Z) :
  Forall (λ i, 0 ≤ i < Z.of_nat Adder.input_vocab_size) row →
  row_tensor row = Ok (T2 [row]).
Proof.
  intros Hrow. unfold row_tensor. rewrite forallb_Forall; [done|].
  eapply Forall_impl; [exact Hrow|]. intros i Hi. apply fits_int64_intro.
  unfold Adder.input_vocab_size in Hi. simpl in Hi. lia.
Qed.

Lemma known_chars_app (s1 s2 : string) :
  known_chars (s1 +:+ s2) ↔ known_chars s1 ∧ known_chars s2.
Proof. unfold known_chars. rewrite chars_app. apply Forall_app. Qed.

Lemma equals_known : known_chars "=".
Proof. apply (bool_decide_unpack _). by vm_compute. Qed.

Section AskAdder.
Variable ndigit : nat.
Variable model_predict : tensor → result Z.

Lemma ask_adder_question (problem_input : string) :
  ∃ question,
    endswith question "=" = true
    ∧ (question = problem_input
       ∨ (endswith problem_input "=" = false ∧ question = problem_input +:+ "="))
    ∧ (known_chars problem_input ↔ known_chars question)
    ∧ AdderEval.ask_adder ndigit model_predict problem_input
      = (Adder.encode_input (ljust question (Adder.max_question_length ndigit))
         ≫= λ encoded, row_tensor encoded
         ≫= λ encoded_question, model_predict encoded_question
         ≫= λ predicted_answer, Ok (question, predicted_answer)).
Proof.
  unfold AdderEval.ask_adder.
  destruct (endswith problem_input "=") eqn:Hends; simpl negb; cbv iota zeta.
  - exists problem_input. split; [done|]. split; [by left|]. done.
  - exists (problem_input +:+ "="). split; [apply endswith_app|].
    split; [by right|]. split; [|done].
    rewrite known_chars_app. pose proof equals_known. tauto.
Qed.
End AskAdder.

(** X14.  [ask_adder] on an input with a character outside the input
    vocabulary raises [KeyError] at the first such character of the input,
    before the model is consulted: one and the same error for every
    model. *)
Theorem ask_adder_unknown_char (ndigit : nat) (problem_input : string) :
  ¬ known_chars problem_input →
  ∃ before c after,
    problem_input = before +:+ String c after
    ∧ known_chars before ∧ (c ∉ chars Adder.input_chars)
    ∧ ∀ model_predict : tensor → result Z,
        AdderEval.ask_adder ndigit model_predict problem_input
        = Raise (KeyError (KStr (String c ""))).
Proof.
  intros Hin.
  destruct (first_unknown_char problem_input Hin)
    as (before & c & after & -> & Hbefore & Hc).
  exists before, c, after. split; [done|]. split; [done|]. split; [done|].
  intros model_predict.
  destruct (ask_adder_question ndigit model_predict (before +:+ String c after))
    as (question & _ & Hq & _ & ->).
  assert (∃ rest, ljust question (Adder.max_question_length ndigit)
                  = before +:+ String c rest) as [rest ->].
  { unfold ljust. destruct Hq as [->|[_ ->]].
    - eexists. rewrite string_app_assoc. reflexivity.
    - eexists. rewrite !string_app_assoc. reflexivity. }
  by rewrite (encode_input_raises_at before rest c Hbefore Hc).
Qed.

Lemma ask_adder_unknown_char_witness :
  ¬ known_chars "2*3"
  ∧ ∃ before c after,
      "2*3"%string = before +:+ String c after
      ∧ known_chars before ∧ (c ∉ chars Adder.input_chars)
      ∧ ∀ model_predict : tensor → result Z,
          AdderEval.ask_adder 2 model_predict "2*3"
          = Raise (KeyError (KStr (String c ""))).
Proof.
  assert (¬ known_chars "2*3") as Hin.
  { apply (bool_decide_unpack _). vm_compute. exact I. }
  split; [exact Hin|]. exact (ask_adder_unknown_char 2 "2*3" Hin).
Defined.

(** X15.  On an input over the input vocabulary, [ask_adder] consults the
    model on exactly one row: the encoding of the question (the input,
    with ["="] appended when it does not end with it) padded to the
    maximum question length.  The question is never truncated: a longer
    one gives a longer row. *)
Theorem ask_adder_model_input (ndigit : nat) (model_predict : tensor → result Z)
    (problem_input : string) :
  known_chars problem_input →
  ∃ question row,
    endswith question "=" = true
    ∧ (question = problem_input
       ∨ (endswith problem_input "=" = false ∧ question = problem_input +:+ "="))
    ∧ Adder.decode_input row = Ok (ljust question (Adder.max_question_length ndigit))
    ∧ length row = Nat.max (String.length question) (Adder.max_question_length ndigit)
    ∧ AdderEval.ask_adder ndigit model_predict problem_input
      = (λ predicted_answer, (question, predicted_answer)) <$> model_predict (T2 [row]).
Proof.
  intros Hin.
  destruct (ask_adder_question ndigit model_predict problem_input)
    as (question & Hends & Hq & Hknown & ->).
  destruct (encode_input_known (ljust question (Adder.max_question_length ndigit)))
    as (row & -> & Hlen & Hrange & Hdec).
  { apply ljust_known. by apply Hknown. }
  exists question, row. split; [done|]. split; [done|]. split; [done|].
  split; [by rewrite Hlen, ljust_length|].
  cbn [mbind result_bind]. rewrite (row_tensor_ids row Hrange). cbn [mbind result_bind].
  by destruct (model_predict (T2 [row])).
Qed.

Lemma ask_adder_model_input_witness :
  known_chars "100+100"
  ∧ ∃ question row,
      endswith question "=" = true
      ∧ (question = "100+100"%string
         ∨ (endswith "100+100" "=" = false ∧ question = "100+100" +:+ "="))
      ∧ Adder.decode_input row = Ok (ljust question (Adder.max_question_length 2))
      ∧ length row = Nat.max (String.length question) (Adder.max_question_length 2)
      ∧ AdderEval.ask_adder 2 example_predict "100+100"
        = (λ predicted_answer, (question, predicted_answer)) <$> example_predict (T2 [row]).
Proof.
  assert (known_chars "100+100") as Hin.
  { apply (bool_decide_unpack _). vm_compute. exact I. }
  split; [exact Hin|]. exact (ask_adder_model_input 2 example_predict "100+100" Hin).
Defined.

(** X16.  The trailing ["="] is optional: asking with and without it gives
    the same result. *)
Theorem ask_adder_optional_equals (ndigit : nat) (model_predict : tensor → result Z)
    (problem : string) :
  endswith problem "=" = false →
  AdderEval.ask_adder ndigit model_predict (problem +:+ "=")
  = AdderEval.ask_adder ndigit model_predict problem.
Proof.
  intros Hends. unfold AdderEval.ask_adder.
  by rewrite endswith_app, Hends.
Qed.

Lemma ask_adder_optional_equals_witness :
  endswith "2+3" "=" = false
  ∧ AdderEval.ask_adder 2 example_predict ("2+3" +:+ "=")
    = AdderEval.ask_adder 2 example_predict "2+3".
Proof.
  assert (endswith "2+3" "=" = false) as Hends by reflexivity.
  split; [exact Hends|]. exact (ask_adder_optional_equals 2 example_predict "2+3" Hends).
Defined.

(** ** The test loop of the adder *)

Section TestLoop.
Context {G : Type} `{RandomGen G}.
Variable ndigit : nat.
Variable model_predict : tensor → result Z.
Variable num_digits_test : nat.

Hypothesis digits_fit : (1 ≤ num_digits_test ≤ ndigit)%nat.
Hypothesis model_answers : ∀ row : list Z,
  length row = Adder.max_question_length ndigit →
  ∃ predicted, model_predict (T2 [row]) = Ok predicted.

Lemma test_loop_spec (n : nat) : ∀ (correct_predictions : Z) (w : world G),
  ∃ correct w',
    AdderEval.test_loop ndigit model_predict num_digits_test n correct_predictions w
    = Ok (correct, w')
    ∧ correct_predictions ≤ correct ≤ correct_predictions + Z.of_nat n
    ∧ np_random w' = np_random w ∧ torch_random w' = torch_random w.
Proof.
  induction n as [|n IH]; intros correct_predictions w.
  - exists correct_predictions, w. split; [done|]. split; [lia|done].
  - assert (0 ≤ 10 ^ Z.of_nat num_digits_test - 1) as Hhi.
    { pose proof (Z.pow_pos_nonneg 10 (Z.of_nat num_digits_test)). lia. }
    destruct (random_randint_spec 0 _ w Hhi) as (a & w1 & Ha & Hra & Hnp1 & Ht1).
    destruct (random_randint_spec 0 _ w1 Hhi) as (b & w2 & Hb & Hrb & Hnp2 & Ht2).
    pose proof (question_length num_digits_test a b (proj1 digits_fit) Hra Hrb) as Hlen.
    destruct (encode_input_known
                (ljust (str a +:+ "+" +:+ str b +:+ "=") (Adder.max_question_length ndigit)))
      as (row & Henc & Hlrow & Hrange & _).
    { apply ljust_known. apply question_known; lia. }
    assert (length row = Adder.max_question_length ndigit) as Hrow.
    { rewrite Hlrow, ljust_length. unfold Adder.max_question_length in *. lia. }
    destruct (model_answers row Hrow) as [predicted Hpred].
    destruct (IH (if predicted =? a + b then correct_predictions + 1
                  else correct_predictions) w2) as (correct & w' & Hloop & Hcount & Hnp & Ht).
    exists correct, w'. cbn [AdderEval.test_loop].
    rewrite Ha. cbn [mbind result_bind]. rewrite Hb. cbn [mbind result_bind].
    rewrite Henc. cbn [mbind result_bind]. rewrite (row_tensor_ids row Hrange).
    cbn [mbind result_bind]. rewrite Hpred. cbn [mbind result_bind].
    split; [exact Hloop|]. split; [|split; congruence].
    destruct (predicted =? a + b); lia.
Qed.
End TestLoop.

(** X17.  When the test problems have at least one and at most [ndigit]
    digits and the model answers on rows of the maximum question length,
    the test loop completes all its problems: every test question is
    encoded to one row of that length, the count of correct predictions
    ends between 0 and [num_tests], and only the generator of [random] is
    advanced. *)
Theorem test_loop_completes {G : Type} `{RandomGen G} (ndigit : nat)
    (model_predict : tensor → result Z) (num_tests num_digits_test : nat) (w : world G) :
  (1 ≤ num_digits_test ≤ ndigit)%nat →
  (∀ row : list Z, length row = Adder.max_question_length ndigit →
     ∃ predicted, model_predict (T2 [row]) = Ok predicted) →
  ∃ correct_predictions w',
    AdderEval.test_loop ndigit model_predict num_digits_test num_tests 0 w
    = Ok (correct_predictions, w')
    ∧ 0 ≤ correct_predictions ≤ Z.of_nat num_tests
    ∧ np_random w' = np_random w ∧ torch_random w' = torch_random w.
Proof.
  intros Hdigits Hmodel.
  destruct (test_loop_spec ndigit model_predict num_digits_test Hdigits Hmodel
              num_tests 0 w) as (correct & w' & Hloop & Hcount & Hframe).
  exists correct, w'. split; [exact Hloop|]. split; [lia|exact Hframe].
Qed.

Lemma example_predict_answers (row : list Z) :
  length row = Adder.max_question_length 2 →
  ∃ predicted, example_predict (T2 [row]) = Ok predicted.
Proof.
  intros Hrow. unfold example_predict. rewrite decide_True by exact Hrow. eauto.
Qed.

Lemma test_loop_completes_witness :
  (1 ≤ 2 ≤ 2)%nat
  ∧ ∃ correct_predictions w',
      AdderEval.test_loop 2 example_predict 2 30 0 (notebook_world 42)
      = Ok (correct_predictions, w')
      ∧ 0 ≤ correct_predictions ≤ Z.of_nat 30.
Proof.
  assert (1 ≤ 2 ≤ 2)%nat as Hdigits by lia.
  split; [exact Hdigits|].
  destruct (test_loop_completes 2 example_predict 30 2 (notebook_world 42) Hdigits
              example_predict_answers) as (correct & w' & Hloop & Hcount & _).
  exists correct, w'. split; [exact Hloop | exact Hcount].
Defined.

(** ** The dataset class *)

Lemma list_getitem_spec {A} (l : list A) (idx : Z) :
  if decide (- Z.of_nat (length l) ≤ idx < Z.of_nat (length l))
  then ∃ x, list_getitem l idx = Ok x
            ∧ l !! Z.to_nat (idx `mod` Z.of_nat (length l)) = Some x
  else list_getitem l idx = Raise IndexError.
Proof.
  unfold list_getitem. cbv zeta.
  destruct (decide (- Z.of_nat (length l) ≤ idx < Z.of_nat (length l))) as [Hin|Hout].
  - destruct (Z.ltb_spec idx 0) as [Hneg|Hpos].
    + destruct (Z.ltb_spec (idx + Z.of_nat (length l)) 0) as [?|_]; [lia|].
      replace (idx `mod` Z.of_nat (length l)) with (idx + Z.of_nat (length l)).
      2:{ apply Z.mod_unique with (q := -1); lia. }
      destruct (lookup_lt_is_Some_2 l (Z.to_nat (idx + Z.of_nat (length l)))) as [x Hx];
        [lia|].
      exists x. by rewrite Hx.
    + destruct (Z.ltb_spec idx 0) as [?|_]; [lia|].
      rewrite Z.mod_small by lia.
      destruct (lookup_lt_is_Some_2 l (Z.to_nat idx)) as [x Hx]; [lia|].
      exists x. by rewrite Hx.
  - destruct (Z.ltb_spec idx 0) as [Hneg|Hpos].
    + destruct (Z.ltb_spec (idx + Z.of_nat (length l)) 0) as [_|?]; [done|lia].
    + destruct (Z.ltb_spec idx 0) as [?|_]; [lia|].
      rewrite lookup_ge_None_2 by lia. done.
Qed.

(** A stored question and its answer belong to the same problem; the
    question is padded to [max_question_len] and never truncated. *)
Section DatasetInit.
Context {G : Type} `{RandomGen G}.
Variables num_digits max_question_len : nat.

Lemma init_loop_spec (n : nat) : ∀ (questions : list tensor) (answers : list Z)
    (w : world G),
  ∃ qs ans w',
    ModifiedAdditionDataset.init_loop num_digits max_question_len n questions answers w
    = Ok (questions ++ qs, answers ++ ans, w')
    ∧ length qs = n ∧ length ans = n
    ∧ Forall2 (stored_problem num_digits max_question_len) qs ans.
Proof.
  induction n as [|n IH]; intros questions answers w.
  - exists [], [], w. simpl. rewrite !app_nil_r. split; [done|]. split; [done|].
    split; [done|constructor].
  - destruct (generate_addition_data_spec num_digits w)
      as (a & b & w1 & Hgen & Ha & Hb & _).
    destruct (encode_input_known (ljust (question_of a b) max_question_len))
      as (row & Henc & Hlen & Hrange & Hdec).
    { apply ljust_known. apply question_known; lia. }
    assert (torch_tensor1 row = Ok (T1 row)) as Htensor.
    { unfold torch_tensor1. rewrite forallb_Forall; [done|].
      eapply Forall_impl; [exact Hrange|]. intros i Hi. apply fits_int64_intro.
      unfold Adder.input_vocab_size in Hi. simpl in Hi. lia. }
    destruct (IH (questions ++ [T1 row]) (answers ++ [a + b]) w1)
      as (qs & ans & w' & Hloop & Hlq & Hla & Hall).
    exists (T1 row :: qs), ((a + b) :: ans), w'.
    cbn [ModifiedAdditionDataset.init_loop]. rewrite Hgen. cbn [mbind result_bind].
    fold (question_of a b). rewrite Henc. cbn [mbind result_bind].
    rewrite Htensor. cbn [mbind result_bind]. rewrite Hloop.
    rewrite <- !app_assoc. split; [done|]. split; [by simpl; f_equal|].
    split; [by simpl; f_equal|]. constructor; [|done].
    exists a, b, row. split; [done|]. split; [done|]. split; [done|].
    split; [done|]. split; [|done]. by rewrite Hlen, ljust_length.
Qed.
End DatasetInit.

Lemma dataset_init_spec_aux {G : Type} `{RandomGen G}
    (num_digits num_samples max_question_len : nat) (w : world G) :
  ∃ self w',
    ModifiedAdditionDataset.init num_digits num_samples max_question_len w = Ok (self, w')
    ∧ Forall2 (stored_problem num_digits max_question_len)
        (ModifiedAdditionDataset.questions self) (ModifiedAdditionDataset.answers self).
Proof.
  destruct (init_loop_spec num_digits max_question_len num_samples [] [] w)
    as (qs & ans & w' & Hloop & _ & _ & Hall).
  eexists _, w'. unfold ModifiedAdditionDataset.init. rewrite Hloop.
  cbn [mbind result_bind]. split; [reflexivity|]. simpl. done.
Qed.

(** X18.  Building a dataset always succeeds and stores exactly
    [num_samples] questions and as many answers, which is also what
    [__len__] returns; the question and the answer at the same position
    belong to the same problem. *)
Theorem dataset_init_aligned {G : Type} `{RandomGen G}
    (num_digits num_samples max_question_len : nat) (w : world G) :
  ∃ self w',
    ModifiedAdditionDataset.init num_digits num_samples max_question_len w = Ok (self, w')
    ∧ ModifiedAdditionDataset.len self = num_samples
    ∧ length (ModifiedAdditionDataset.questions self) = ModifiedAdditionDataset.len self
    ∧ length (ModifiedAdditionDataset.answers self) = ModifiedAdditionDataset.len self
    ∧ Forall2 (stored_problem num_digits max_question_len)
        (ModifiedAdditionDataset.questions self) (ModifiedAdditionDataset.answers self).
Proof.
  destruct (init_loop_spec num_digits max_question_len num_samples [] [] w)
    as (qs & ans & w' & Hloop & Hlq & Hla & Hall).
  eexists _, w'. unfold ModifiedAdditionDataset.init. rewrite Hloop.
  cbn [mbind result_bind]. split; [reflexivity|]. simpl. done.
Qed.

(** X19.  When the maximum question length leaves room for two operands of
    [num_digits >= 1] digits, every stored question is a tensor of exactly
    that length, so the questions can be stacked into batches. *)
Theorem dataset_questions_uniform {G : Type} `{RandomGen G}
    (num_digits num_samples max_question_len : nat) (w w' : world G)
    (self : ModifiedAdditionDataset.t) :
  (1 ≤ num_digits)%nat →
  (num_digits + 1 + num_digits + 1 ≤ max_question_len)%nat →
  ModifiedAdditionDataset.init num_digits num_samples max_question_len w = Ok (self, w') →
  Forall (λ question, shape question = [max_question_len])
    (ModifiedAdditionDataset.questions self).
Proof.
  intros Hnd Hlen Hinit.
  destruct (dataset_init_spec_aux num_digits num_samples max_question_len w)
    as (self' & w'' & Hinit' & Hall).
  rewrite Hinit in Hinit'. injection Hinit' as <- <-.
  eapply Forall2_Forall_l; [exact Hall|]. apply Forall_forall.
  intros y _ question (a & b & row & -> & Ha & Hb & _ & Hrow & _).
  simpl. f_equal. rewrite Hrow.
  pose proof (question_length num_digits a b Hnd Ha Hb) as Hq.
  unfold Adder.max_question_length in Hq. unfold question_of. lia.
Qed.

Lemma dataset_questions_uniform_witness :
  (1 ≤ 2)%nat ∧ (2 + 1 + 2 + 1 ≤ 6)%nat
  ∧ ∃ self w',
      ModifiedAdditionDataset.init 2 50 6 (notebook_world 42) = Ok (self, w')
      ∧ Forall (λ question, shape question = [6%nat])
          (ModifiedAdditionDataset.questions self).
Proof.
  assert (1 ≤ 2)%nat as Hnd by lia.
  assert (2 + 1 + 2 + 1 ≤ 6)%nat as Hlen by lia.
  assert (∃ self w', ModifiedAdditionDataset.init 2 50 6 (notebook_world 42)
                     = Ok (self, w')) as (self & w' & Hinit).
  { vm_compute. eexists _, _. reflexivity. }
  split; [exact Hnd|]. split; [exact Hlen|]. exists self, w'. split; [exact Hinit|].
  exact (dataset_questions_uniform 2 50 6 (notebook_world 42) w' self Hnd Hlen Hinit).
Defined.

(** X20.  [__getitem__] agrees with [__len__]: on a dataset whose two lists
    have [__len__] entries, an index from [-len] to [len - 1] returns the
    question and the answer at that position, a negative index counting
    from the end, and every other index raises [IndexError]. *)
Theorem dataset_getitem_bounds (self : ModifiedAdditionDataset.t) (idx : Z) :
  length (ModifiedAdditionDataset.questions self) = ModifiedAdditionDataset.len self →
  length (ModifiedAdditionDataset.answers self) = ModifiedAdditionDataset.len self →
  let n := Z.of_nat (ModifiedAdditionDataset.len self) in
  if decide (- n ≤ idx < n)
  then ∃ question answer,
         ModifiedAdditionDataset.getitem self idx = Ok (question, answer)
         ∧ ModifiedAdditionDataset.questions self !! Z.to_nat (idx `mod` n) = Some question
         ∧ ModifiedAdditionDataset.answers self !! Z.to_nat (idx `mod` n) = Some answer
  else ModifiedAdditionDataset.getitem self idx = Raise IndexError.
Proof.
  intros Hlq Hla n. unfold ModifiedAdditionDataset.getitem.
  pose proof (list_getitem_spec (ModifiedAdditionDataset.questions self) idx) as Hq.
  pose proof (list_getitem_spec (ModifiedAdditionDataset.answers self) idx) as Ha.
  rewrite Hlq in Hq. rewrite Hla in Ha. fold n in Hq, Ha.
  destruct (decide (- n ≤ idx < n)) as [Hin|Hout].
  - destruct Hq as (question & -> & Hquestion). destruct Ha as (answer & -> & Hanswer).
    exists question, answer. done.
  - by rewrite Hq.
Qed.

Lemma dataset_getitem_bounds_witness :
  let self := {| ModifiedAdditionDataset.num_digits := 1;
                 ModifiedAdditionDataset.num_samples := 2;
                 ModifiedAdditionDataset.max_question_len := 4;
                 ModifiedAdditionDataset.questions := [T1 [2; 10; 3; 11]; T1 [9; 10; 9; 11]];
                 ModifiedAdditionDataset.answers := [5; 18] |} in
  ModifiedAdditionDataset.getitem self (-1) = Ok (T1 [9; 10; 9; 11], 18)
  ∧ ModifiedAdditionDataset.getitem self 2 = Raise IndexError.
Proof.
  intros self.
  pose proof (dataset_getitem_bounds self (-1) eq_refl eq_refl) as Hlast.
  pose proof (dataset_getitem_bounds self 2 eq_refl eq_refl) as Hout.
  split; [reflexivity | exact Hout].
Defined.

(** ** The window of the generation loop *)

(** X21.  The context of the generation loop is a sliding window: while
    the sequence is shorter than [block_size] the next context is the
    previous one with the sampled token appended; from then on it has
    exactly [block_size] tokens and is the previous context without its
    first token, with the sampled token appended. *)
Theorem generation_window_slides {G : Type} (block_size : nat) (Logits Probs : Type)
    (model : list Z → result (list Logits)) (div : Logits → Z → Logits)
    (softmax : Logits → Probs) (multinomial : Probs → world G → Z * world G)
    (context : list Z) (w : world G) :
  (1 ≤ block_size)%nat →
  (∀ ctx : list Z, (1 ≤ length ctx ≤ block_size)%nat →
     ∃ ls, model ctx = Ok ls ∧ length ls = length ctx) →
  context ≠ [] →
  ∃ generated w' log,
    NanoGPT.generate block_size Logits Probs model div softmax multinomial context w
    = Ok (generated, w', log)
    ∧ ∀ k it next, log !! k = Some it → log !! S k = Some next →
        NanoGPT.seq_before next = NanoGPT.seq_before it ++ [NanoGPT.token it]
        ∧ ((length (NanoGPT.seq_before it) < block_size)%nat →
           NanoGPT.fed next = NanoGPT.fed it ++ [NanoGPT.token it])
        ∧ ((block_size ≤ length (NanoGPT.seq_before it))%nat →
           NanoGPT.fed next = drop 1 (NanoGPT.fed it) ++ [NanoGPT.token it]
           ∧ length (NanoGPT.fed next) = block_size).
Proof.
  intros Hblock Hmodel Hctx.
  destruct (generation_loop_spec block_size Logits Probs model div softmax multinomial
              Hblock Hmodel 50 context w [] Hctx) as (its & w' & Hloop & Hlen & Hits).
  exists (context ++ (NanoGPT.token <$> its)), w', its. split; [exact Hloop|].
  intros k it next Hk Hnext.
  destruct (Hits k it Hk) as (Hseq & Hfed & _).
  destruct (Hits (S k) next Hnext) as (Hseq' & Hfed' & _).
  assert (NanoGPT.seq_before next = NanoGPT.seq_before it ++ [NanoGPT.token it]) as Hstep.
  { rewrite Hseq', Hseq. rewrite (take_S_r _ _ it) by done.
    by rewrite fmap_app, app_assoc. }
  split; [exact Hstep|].
  rewrite Hfed', Hfed, Hstep, length_app. simpl length.
  set (s := NanoGPT.seq_before it). split.
  - intros Hshort.
    replace (length s + 1 - block_size)%nat with 0%nat by lia.
    replace (length s - block_size)%nat with 0%nat by lia. by rewrite !drop_0.
  - intros Hlong.
    replace (length s + 1 - block_size)%nat with (length s - block_size + 1)%nat by lia.
    rewrite drop_app_le by lia. rewrite drop_drop. split; [done|].
    rewrite length_app, length_drop. simpl. lia.
Qed.

Lemma generation_window_slides_witness :
  (1 ≤ 10)%nat ∧ notebook_context ≠ []
  ∧ ∃ generated w' log,
      NanoGPT.generate 10 (list Z) (list Z) example_model example_div example_softmax
        example_multinomial notebook_context (notebook_world 1)
      = Ok (generated, w', log)
      ∧ ∀ k it next, log !! k = Some it → log !! S k = Some next →
          NanoGPT.seq_before next = NanoGPT.seq_before it ++ [NanoGPT.token it].
Proof.
  assert (1 ≤ 10)%nat as Hblock by lia.
  assert (notebook_context ≠ []) as Hctx.
  { intros Hnil. pose proof notebook_context_length as Hlen.
    rewrite Hnil in Hlen. discriminate Hlen. }
  split; [exact Hblock|]. split; [exact Hctx|].
  destruct (generation_window_slides 10 (list Z) (list Z) example_model example_div
              example_softmax example_multinomial notebook_context (notebook_world 1)
              Hblock example_model_returns Hctx)
    as (generated & w' & log & Hgen & Hlog).
  exists generated, w', log. split; [exact Hgen|].
  intros k it next Hk Hnext. exact (proj1 (Hlog k it next Hk Hnext)).
Defined.

(** X22.  The generated text can always be decoded: when the starting
    context holds ids of the vocabulary and the sampler returns ids of the
    vocabulary, so does the generated sequence, and [decode] returns on
    it. *)
Theorem generated_text_decodes {G : Type} (text : string) (block_size : nat)
    (Logits Probs : Type)
    (model : list Z → result (list Logits)) (div : Logits → Z → Logits)
    (softmax : Logits → Probs) (multinomial : Probs → world G → Z * world G)
    (context : list Z) (w : world G) :
  (1 ≤ block_size)%nat →
  (∀ ctx : list Z, (1 ≤ length ctx ≤ block_size)%nat →
     ∃ ls, model ctx = Ok ls ∧ length ls = length ctx) →
  (∀ probs wk, valid_id (NanoGPT.vocab_size text) (multinomial probs wk).1) →
  context ≠ [] →
  Forall (valid_id (NanoGPT.vocab_size text)) context →
  ∃ generated w' log generated_text,
    NanoGPT.generate block_size Logits Probs model div softmax multinomial context w
    = Ok (generated, w', log)
    ∧ Forall (valid_id (NanoGPT.vocab_size text)) generated
    ∧ NanoGPT.decode text generated = Ok generated_text.
Proof.
  intros Hblock Hmodel Hsampler Hctx Hvalid.
  destruct (generation_loop_spec block_size Logits Probs model div softmax multinomial
              Hblock Hmodel 50 context w [] Hctx) as (its & w' & Hloop & Hlen & Hits).
  assert (Forall (valid_id (NanoGPT.vocab_size text))
            (context ++ (NanoGPT.token <$> its))) as Hall.
  { apply Forall_app. split; [done|]. apply Forall_fmap, Forall_forall.
    intros it (k & Hk)%list_elem_of_lookup.
    destruct (Hits k it Hk) as (_ & _ & _ & ls & l & wk & _ & _ & _ & Htok).
    unfold compose. rewrite Htok. apply Hsampler. }
  destruct (decode_valid text _ Hall) as [d Hd].
  exists (context ++ (NanoGPT.token <$> its)), w', its, d. done.
Qed.

Lemma notebook_context_valid :
  Forall (valid_id (NanoGPT.vocab_size NanoGPT.text)) notebook_context.
Proof. apply (bool_decide_unpack _). vm_compute. exact I. Qed.

Lemma generated_text_decodes_witness :
  (1 ≤ 10)%nat ∧ notebook_context ≠ []
  ∧ ∃ generated w' log generated_text,
      NanoGPT.generate 10 (list Z) (list Z) example_model example_div example_softmax
        (λ _ wk, torch_draw 123 wk) notebook_context (notebook_world 1)
      = Ok (generated, w', log)
      ∧ Forall (valid_id (NanoGPT.vocab_size NanoGPT.text)) generated
      ∧ NanoGPT.decode NanoGPT.text generated = Ok generated_text.
Proof.
  assert (1 ≤ 10)%nat as Hblock by lia.
  assert (notebook_context ≠ []) as Hctx.
  { intros Hnil. pose proof notebook_context_length as Hlen.
    rewrite Hnil in Hlen. discriminate Hlen. }
  assert (∀ (probs : list Z) (wk : world Z),
            valid_id (NanoGPT.vocab_size NanoGPT.text) (torch_draw 123 wk).1) as Hsampler.
  { intros _ wk. rewrite notebook_vocab_size. unfold torch_draw, valid_id.
    pose proof (rng_below_range 123 (torch_random wk)) as Hr.
    destruct (rng_below 123 (torch_random wk)) as [r g]. simpl in *. lia. }
  split; [exact Hblock|]. split; [exact Hctx|].
  exact (generated_text_decodes NanoGPT.text 10 (list Z) (list Z) example_model example_div
           example_softmax (λ _ wk, torch_draw 123 wk) notebook_context (notebook_world 1)
           Hblock example_model_returns Hsampler Hctx notebook_context_valid).
Defined.
